(** * Libparc: atomic scalars, key/value pairs, identity files, loggers and
      the N x M ring buffer

    A shallow embedding of the parts of Libparc that the specification's
    testable properties talk about, followed by the properties themselves.

    - [CInt]         C integer conversions used by the sources (uint8_t, int8_t).
    - [AtomicUint8]  parc/concurrent/parc_AtomicUint8.c, both [#ifdef] branches.
    - [KeyValue]     parc/algol/parc_KeyValue.c.
    - [CString]      the two <string.h> functions the sources call.
    - [Memory]       the allocator and object header the factories rely on.
    - [IdentityFile] parc/security/parc_IdentityFile.c.
    - [Log]          parc/logging/parc_Log.c ([parcLog_Create]).
    - [RingBuffer]   the bounded queue, whose C file is not part of the
                     sources at hand. *)

From stdpp Require Import gmap strings list fin_maps.
From Stdlib Require Import ZArith Lia Ascii.

Open Scope Z_scope.

(* ===================================================================== *)
(** ** C integer conversions *)
(* ===================================================================== *)

Module CInt.

(** The values a [uint8_t] object can hold. *)
Definition is_uint8 (z : Z) : Prop := 0 <= z < 256.

(** Conversion of an [int] to [uint8_t]: reduction modulo 2^8
    (C11 6.3.1.3p2). *)
Definition to_uint8 (z : Z) : Z := z mod 256.

(** Conversion of an [int] to [int8_t].  For a value that the type cannot
    represent the result is implementation-defined (C11 6.3.1.3p3); gcc and
    clang, the compilers Libparc builds with, reduce modulo 2^8 into
    [-128, 127]. *)
Definition to_int8 (z : Z) : Z :=
  let r := z mod 256 in if r <? 128 then r else r - 256.

End CInt.

(* ===================================================================== *)
(** ** parc_AtomicUint8.c *)
(* ===================================================================== *)

Module AtomicUint8.
Import CInt.

(** What the two builds of the file have in common: an instance type and
    the five entry points.  A [None] result means that the call does not
    return (the calling thread waits for ever on a mutex it cannot get). *)
Class Backend (T : Type) := {
  parcAtomicUint8_Create : Z -> T;
  parcAtomicUint8_GetValue : T -> Z;
  parcAtomicUint8_AddImpl : T -> Z -> option (Z * T);
  parcAtomicUint8_SubtractImpl : T -> Z -> option (Z * T);
  parcAtomicUint8_CompareAndSwapImpl : T -> Z -> Z -> option (bool * T)
}.

(** *** The build with [PARCLibrary_DISABLE_ATOMICS] *)
Module Fallback.

Inductive pthread_mutex_t := Unlocked | Locked.

(** [struct PARCAtomicUint8 { uint8_t value; pthread_mutex_t mutex; }] *)
Record PARCAtomicUint8 := {
  value : Z;
  mutex : pthread_mutex_t
}.

(** Code that runs on one instance: it reads and writes the struct, and
    may wait for ever. *)
Definition M (A : Type) : Type := PARCAtomicUint8 -> option (A * PARCAtomicUint8).

#[export] Instance M_ret : MRet M := fun A a s => Some (a, s).

#[export] Instance M_bind : MBind M := fun A B k c s =>
  match c s with
  | Some (a, s') => k a s'
  | None => None
  end.

(** A default (non-recursive) mutex: locking one that is held never
    returns in a sequential run; unlocking one that is not held is
    undefined. *)
Definition pthread_mutex_lock : M unit :=
  fun s => match mutex s with
           | Unlocked => Some (tt, {| value := value s; mutex := Locked |})
           | Locked => None
           end.

Definition pthread_mutex_unlock : M unit :=
  fun s => match mutex s with
           | Locked => Some (tt, {| value := value s; mutex := Unlocked |})
           | Unlocked => None
           end.

Definition load_value : M Z := fun s => Some (value s, s).

Definition store_value (v : Z) : M unit :=
  fun s => Some (tt, {| value := v; mutex := mutex s |}).

(** [pthread_mutex_init(&result->mutex, NULL); result->value = value;] *)
Definition parcAtomicUint8_Create (v : Z) : PARCAtomicUint8 :=
  {| value := v; mutex := Unlocked |}.

(** [return instance->value;] *)
Definition parcAtomicUint8_GetValue (instance : PARCAtomicUint8) : Z :=
  value instance.

(** [value->value += addend; uint8_t result = value->value;] between
    lock and unlock.  The sum is computed in [int] and converted back. *)
Definition parcAtomicUint8_AddImpl (addend : Z) : M Z :=
  pthread_mutex_lock ;;
  v ← load_value ;
  store_value (to_uint8 (v + addend)) ;;
  result ← load_value ;
  pthread_mutex_unlock ;;
  mret result.

Definition parcAtomicUint8_SubtractImpl (subtrahend : Z) : M Z :=
  pthread_mutex_lock ;;
  v ← load_value ;
  store_value (to_uint8 (v - subtrahend)) ;;
  result ← load_value ;
  pthread_mutex_unlock ;;
  mret result.

Definition parcAtomicUint8_CompareAndSwapImpl (predicate newValue : Z) : M bool :=
  pthread_mutex_lock ;;
  v ← load_value ;
  result ← (if v =? predicate
            then store_value newValue ;; mret true
            else mret false) ;
  pthread_mutex_unlock ;;
  mret result.

#[export] Instance backend : Backend PARCAtomicUint8 := {|
  AtomicUint8.parcAtomicUint8_Create := parcAtomicUint8_Create;
  AtomicUint8.parcAtomicUint8_GetValue := parcAtomicUint8_GetValue;
  AtomicUint8.parcAtomicUint8_AddImpl := fun s d => parcAtomicUint8_AddImpl d s;
  AtomicUint8.parcAtomicUint8_SubtractImpl := fun s d => parcAtomicUint8_SubtractImpl d s;
  AtomicUint8.parcAtomicUint8_CompareAndSwapImpl :=
    fun s p n => parcAtomicUint8_CompareAndSwapImpl p n s
|}.

(** The state every entry point expects and re-establishes. *)
Definition idle (s : PARCAtomicUint8) : Prop := mutex s = Unlocked.

End Fallback.

(** *** The build without [PARCLibrary_DISABLE_ATOMICS] *)
Module LockFree.

(** Here [PARCAtomicUint8] is the bare [uint8_t]. *)
Definition PARCAtomicUint8 : Type := Z.

(** The gcc [__sync] builtins on a [uint8_t] object, as the gcc manual
    gives them: each is one atomic step, so its effect in a sequential
    run is that of the statement it stands for. *)

(** [{ *ptr += value; return *ptr; }] *)
Definition __sync_add_and_fetch (ptr : PARCAtomicUint8) (v : Z) : Z * PARCAtomicUint8 :=
  let n := to_uint8 (ptr + v) in (n, n).

(** [{ *ptr -= value; return *ptr; }] *)
Definition __sync_sub_and_fetch (ptr : PARCAtomicUint8) (v : Z) : Z * PARCAtomicUint8 :=
  let n := to_uint8 (ptr - v) in (n, n).

(** If [*ptr] is [oldval], write [newval]; say whether the write
    happened. *)
Definition __sync_bool_compare_and_swap (ptr : PARCAtomicUint8) (oldval newval : Z)
  : bool * PARCAtomicUint8 :=
  if ptr =? oldval then (true, newval) else (false, ptr).

(** [*result = value;] *)
Definition parcAtomicUint8_Create (v : Z) : PARCAtomicUint8 := v.

(** [return *instance;] *)
Definition parcAtomicUint8_GetValue (instance : PARCAtomicUint8) : Z := instance.

Definition parcAtomicUint8_AddImpl (value : PARCAtomicUint8) (addend : Z)
  : Z * PARCAtomicUint8 :=
  __sync_add_and_fetch value addend.

Definition parcAtomicUint8_SubtractImpl (value : PARCAtomicUint8) (subtrahend : Z)
  : Z * PARCAtomicUint8 :=
  __sync_sub_and_fetch value subtrahend.

Definition parcAtomicUint8_CompareAndSwapImpl (value : PARCAtomicUint8)
    (predicate newValue : Z) : bool * PARCAtomicUint8 :=
  __sync_bool_compare_and_swap value predicate newValue.

#[export] Instance backend : Backend PARCAtomicUint8 := {|
  AtomicUint8.parcAtomicUint8_Create := parcAtomicUint8_Create;
  AtomicUint8.parcAtomicUint8_GetValue := parcAtomicUint8_GetValue;
  AtomicUint8.parcAtomicUint8_AddImpl := fun s d => Some (parcAtomicUint8_AddImpl s d);
  AtomicUint8.parcAtomicUint8_SubtractImpl :=
    fun s d => Some (parcAtomicUint8_SubtractImpl s d);
  AtomicUint8.parcAtomicUint8_CompareAndSwapImpl :=
    fun s p n => Some (parcAtomicUint8_CompareAndSwapImpl s p n)
|}.

End LockFree.

(** *** The functions that are the same text in both builds *)
Section Generic.
Context {T : Type} {B : Backend T}.

(** [int8_t comparison = GetValue(instance) - GetValue(other);] then the
    sign of [comparison]. *)
Definition parcAtomicUint8_Compare (instance other : T) : Z :=
  let comparison :=
    to_int8 (parcAtomicUint8_GetValue instance - parcAtomicUint8_GetValue other) in
  if comparison <? 0 then -1
  else if comparison >? 0 then 1
  else 0.

Definition parcAtomicUint8_Copy (original : T) : T :=
  parcAtomicUint8_Create (parcAtomicUint8_GetValue original).

Definition parcAtomicUint8_Equals (x y : T) : bool :=
  parcAtomicUint8_GetValue x =? parcAtomicUint8_GetValue y.

(** [(uint32_t) parcAtomicUint8_GetValue(instance)] *)
Definition parcAtomicUint8_HashCode (instance : T) : Z :=
  parcAtomicUint8_GetValue instance mod 2 ^ 32.

End Generic.

(** The operations a caller can ask of an atomic scalar, and what it gets
    back, so that the two builds can be run side by side. *)
Inductive operation :=
| OpGet
| OpAdd (delta : Z)
| OpSubtract (delta : Z)
| OpCompareAndSwap (expected newValue : Z).

Inductive answer :=
| AValue (v : Z)
| ABool (b : bool).

Definition perform {T : Type} {B : Backend T} (op : operation) (s : T) : option (answer * T) :=
  match op with
  | OpGet => Some (AValue (parcAtomicUint8_GetValue s), s)
  | OpAdd d => prod_map AValue id <$> parcAtomicUint8_AddImpl s d
  | OpSubtract d => prod_map AValue id <$> parcAtomicUint8_SubtractImpl s d
  | OpCompareAndSwap e n => prod_map ABool id <$> parcAtomicUint8_CompareAndSwapImpl s e n
  end.

(** A mutex-guarded instance and a lock-free one that stand for the same
    scalar. *)
Definition same_scalar (f : Fallback.PARCAtomicUint8) (l : LockFree.PARCAtomicUint8) : Prop :=
  Fallback.value f = l /\ Fallback.idle f.

End AtomicUint8.

(* ===================================================================== *)
(** ** parc_KeyValue.c *)
(* ===================================================================== *)

Module KeyValue.
Section WithObjects.

(** parc_Object.h.  [PARCObject] stands for the non-null [PARCObject *]
    handles, compared with [==] as pointers; a possibly null pointer is
    an [option].  The three dispatching calls the file makes are taken
    as given: they are whatever the capability tables of the objects at
    hand provide. *)
Context {PARCObject : Type} `{EqDecision PARCObject}.
Variable parcObject_Equals : PARCObject -> PARCObject -> bool.
Variable parcObject_Compare : PARCObject -> PARCObject -> Z.
Variable parcObject_HashCode : PARCObject -> Z.

(** [struct parc_key_value { PARCObject *key; PARCObject *value; }].
    [parcKeyValue_Create] asserts that the key is not null; the value
    may be. *)
Record parc_key_value := {
  key : PARCObject;
  value : option PARCObject
}.

Definition parcKeyValue_Equals (a b : parc_key_value) : bool :=
  let result := parcObject_Equals (key a) (key b) in
  match value a, value b with
  | Some va, Some vb => result && parcObject_Equals va vb
  | va, vb => result && bool_decide (va = vb)
  end.

Definition parcKeyValue_Compare (a b : option parc_key_value) : Z :=
  match a, b with
  | None, None => 0
  | Some _, None => 1
  | None, Some _ => -1
  | Some a', Some b' => parcObject_Compare (key a') (key b')
  end.

Definition parcKeyValue_HashCode (keyValue : parc_key_value) : Z :=
  parcObject_HashCode (key keyValue).

Definition parcKeyValue_EqualKeys (a b : parc_key_value) : bool :=
  parcObject_Equals (key a) (key b).

(** The obligation the object runtime puts on every capability-table
    author. *)
Definition hash_equals_contract : Prop :=
  forall x y, parcObject_Equals x y = true ->
              parcObject_HashCode x = parcObject_HashCode y.

End WithObjects.

Arguments parc_key_value : clear implicits.

(** Objects that are numbers, equal when they are the same number modulo
    10, hashed by their last digit. *)
Definition digit_Equals (x y : Z) : bool := x mod 10 =? y mod 10.
Definition digit_HashCode (x : Z) : Z := x mod 10.

End KeyValue.

(* ===================================================================== *)
(** ** <string.h> *)
(* ===================================================================== *)

Module CString.

(** A [char *] that points to a string is modelled by the characters it
    points to; as in C the string ends at its first NUL, or where the
    characters end. *)

(** The character as an [unsigned char]. *)
Definition code (c : ascii) : Z := Z.of_N (N_of_ascii c).

Definition is_nul (c : ascii) : bool := code c =? 0.

Fixpoint strlen (s : string) : nat :=
  match s with
  | EmptyString => 0%nat
  | String c rest => if is_nul c then 0%nat else S (strlen rest)
  end.

(** The difference of the first two characters that differ, as unsigned
    chars; the C standard fixes only its sign. *)
Fixpoint strcmp (s1 s2 : string) : Z :=
  match s1, s2 with
  | EmptyString, EmptyString => 0
  | EmptyString, String c2 _ => 0 - code c2
  | String c1 _, EmptyString => code c1 - 0
  | String c1 r1, String c2 r2 =>
      if code c1 =? code c2
      then (if is_nul c1 then 0 else strcmp r1 r2)
      else code c1 - code c2
  end.

(** The first [n] characters of the string, or all of it if it is
    shorter. *)
Fixpoint strndup (s : string) (n : nat) : string :=
  match n, s with
  | S n', String c rest => if is_nul c then EmptyString else String c (strndup rest n')
  | _, _ => EmptyString
  end.

End CString.

(* ===================================================================== *)
(** ** Allocation and the object header *)
(* ===================================================================== *)

Module Memory.

(** A non-null address; a pointer is an [option address], [None] being
    [NULL]. *)
Definition address : Type := positive.

(** How a call ends: it returns, it raises a LongBow trap (the process
    does not continue), or it waits for ever. *)
Inductive outcome (A : Type) : Type :=
| Returned (a : A)
| Trapped (reason : string)
| Blocked.
Arguments Returned {A} a.
Arguments Trapped {A} reason.
Arguments Blocked {A}.

#[export] Instance outcome_ret : MRet outcome := fun A a => Returned a.

#[export] Instance outcome_bind : MBind outcome := fun A B k c =>
  match c with
  | Returned a => k a
  | Trapped reason => Trapped reason
  | Blocked => Blocked
  end.

Section Store.
Variable P : Type.

(** Modelled from the spec: parc_Object.c and parc_Memory.c are not
    among the sources.  A managed object is a payload behind a header
    that holds its reference count. *)
Record object := {
  refcount : nat;
  payload : P
}.

(** The allocator's state: the objects that are live, the number of live
    allocations that are not objects (duplicated strings), how many more
    allocations the system can satisfy, and how many it has been asked
    for so far. *)
Record memory := {
  objects : gmap address object;
  raw : nat;
  available : nat;
  attempts : nat
}.

(** Modelled from the spec: [parcMemory_Outstanding] (parc_Memory.c), the
    number of allocations that have not been freed. *)
Definition parcMemory_Outstanding (m : memory) : nat :=
  (size (objects m) + raw m)%nat.

(** Modelled from the spec: [parcObject_CreateInstance] (parc_Object.c) is
    the runtime's Create: one attempt to allocate header and payload; NULL
    if it fails, else a new object with count 1.  [initial] stands for the
    payload's contents before the caller assigns the fields. *)
Definition parcObject_CreateInstance (initial : P) (m : memory) : option address * memory :=
  match available m with
  | O => (None, {| objects := objects m; raw := raw m;
                   available := O; attempts := S (attempts m) |})
  | S n =>
      let a := fresh (dom (objects m)) in
      (Some a, {| objects := <[a := {| refcount := 1; payload := initial |}]> (objects m);
                  raw := raw m; available := n; attempts := S (attempts m) |})
  end.

(** Modelled from the spec: [parcMemory_StringDuplicate] (parc_Memory.c)
    is an allocation like any other, so it gives NULL when nothing can
    be allocated; otherwise a copy of the first [length] characters. *)
Definition parcMemory_StringDuplicate (s : string) (length : nat) (m : memory)
  : option string * memory :=
  match available m with
  | O => (None, {| objects := objects m; raw := raw m;
                   available := O; attempts := S (attempts m) |})
  | S n => (Some (CString.strndup s length),
            {| objects := objects m; raw := S (raw m);
               available := n; attempts := S (attempts m) |})
  end.

(** [instance->field = ...]: a write through a pointer to a live
    object.  The factories below write only through the pointer that
    [parcObject_CreateInstance] has just given them. *)
Definition update_payload (a : address) (f : P -> P) (m : memory) : memory :=
  {| objects := alter (fun o => {| refcount := refcount o; payload := f (payload o) |})
                      a (objects m);
     raw := raw m; available := available m; attempts := attempts m |}.

Definition read_payload (m : memory) (a : address) : option P :=
  payload <$> objects m !! a.

(** Storage given back to the allocator. *)
Definition free (a : address) (m : memory) : memory :=
  {| objects := delete a (objects m); raw := raw m;
     available := S (available m); attempts := attempts m |}.

(** Modelled from the spec: Acquire increments the count of a live
    object and returns the same handle; acquiring what is not live is
    a fatal invariant violation. *)
Definition parcObject_Acquire (a : address) (m : memory) : outcome (address * memory) :=
  match objects m !! a with
  | Some o =>
      Returned (a, {| objects := <[a := {| refcount := S (refcount o); payload := payload o |}]>
                                   (objects m);
                      raw := raw m; available := available m; attempts := attempts m |})
  | None => Trapped "acquire of an object that is not live"
  end.

(** Modelled from the spec: Release decrements the count; when it
    reaches 0 the type's finalizer runs and then header and payload are
    freed.  Releasing what is not live is a fatal invariant
    violation. *)
Definition parcObject_Release (finalize : P -> memory -> outcome memory)
    (a : address) (m : memory) : outcome memory :=
  match objects m !! a with
  | Some o =>
      match refcount o with
      | O => Trapped "release of an object that is not live"
      | S O => m' ← finalize (payload o) m ; mret (free a m')
      | S n =>
          Returned {| objects := <[a := {| refcount := n; payload := payload o |}]> (objects m);
                      raw := raw m; available := available m; attempts := attempts m |}
      end
  | None => Trapped "release of an object that is not live"
  end.

End Store.

Arguments refcount {P} _.
Arguments payload {P} _.
Arguments objects {P} _.
Arguments raw {P} _.
Arguments available {P} _.
Arguments attempts {P} _.
Arguments parcMemory_Outstanding {P} m.
Arguments parcObject_CreateInstance {P} initial m.
Arguments parcMemory_StringDuplicate {P} s length m.
Arguments update_payload {P} a f m.
Arguments read_payload {P} m a.
Arguments free {P} a m.
Arguments parcObject_Acquire {P} a m.
Arguments parcObject_Release {P} finalize a m.

(** Nothing allocated, and nothing left to allocate. *)
Definition exhausted {P : Type} : memory P :=
  {| objects := ∅; raw := 0; available := 0; attempts := 0 |}.

(** Nothing allocated, and room for [n] allocations. *)
Definition room {P : Type} (n : nat) : memory P :=
  {| objects := ∅; raw := 0; available := n; attempts := 0 |}.


End Memory.

(* ===================================================================== *)
(** ** parc_IdentityFile.c *)
(* ===================================================================== *)

Module IdentityFile.
Import Memory CString.

(** [struct parc_identity_file { const char *fileName; const char *passWord; }] *)
Record parc_identity_file := {
  fileName : option string;
  passWord : option string
}.

Abbreviation memory := (Memory.memory parc_identity_file).

(** The payload [parcObject_CreateInstance] hands out, before the fields
    are assigned. *)
Definition unassigned : parc_identity_file :=
  {| fileName := None; passWord := None |}.

Definition set_fileName (v : option string) (i : parc_identity_file) : parc_identity_file :=
  {| fileName := v; passWord := passWord i |}.

Definition set_passWord (v : option string) (i : parc_identity_file) : parc_identity_file :=
  {| fileName := fileName i; passWord := v |}.

Definition parcIdentityFile_Create (fileName passWord : string) (m : memory)
  : option address * memory :=
  let '(instance, m) := parcObject_CreateInstance unassigned m in
  match instance with
  | Some a =>
      let '(f, m) := parcMemory_StringDuplicate fileName (strlen fileName) m in
      let m := update_payload a (set_fileName f) m in
      let '(p, m) := parcMemory_StringDuplicate passWord (strlen passWord) m in
      let m := update_payload a (set_passWord p) m in
      (instance, m)
  | None => (instance, m)
  end.

(** [identity->fileName]; [None] when [identity] does not point to a live
    instance. *)
Definition parcIdentityFile_GetFileName (m : memory) (identity : address)
  : option (option string) :=
  fileName <$> read_payload m identity.

Definition parcIdentityFile_GetPassWord (m : memory) (identity : address)
  : option (option string) :=
  passWord <$> read_payload m identity.

(** [strcmp] on two [char *]: undefined ([None]) if one of them is NULL. *)
Definition strcmp_ptr (s1 s2 : option string) : option Z :=
  x ← s1 ; y ← s2 ; Some (strcmp x y).

(** [None] stands for undefined behaviour: a pointer that is neither NULL
    nor a live instance, or an instance with a NULL field. *)
Definition parcIdentityFile_Equals (m : memory) (a b : option address) : option bool :=
  if bool_decide (a = b) then Some true
  else
    match a, b with
    | Some a', Some b' =>
        fa ← parcIdentityFile_GetFileName m a' ;
        fb ← parcIdentityFile_GetFileName m b' ;
        c ← strcmp_ptr fa fb ;
        if negb (c =? 0) then Some false
        else
          pa ← parcIdentityFile_GetPassWord m a' ;
          pb ← parcIdentityFile_GetPassWord m b' ;
          c' ← strcmp_ptr pa pb ;
          if negb (c' =? 0) then Some false
          else Some true
    | _, _ => Some false
    end.

End IdentityFile.

(* ===================================================================== *)
(** ** parc_Log.c: [parcLog_Create] *)
(* ===================================================================== *)

Module Log.
Import Memory CString.

Section WithReporter.

(** parc_LogLevel.h and parc_LogReporter.h are not among the sources:
    the level type, its [Off] member, the reporter handles and
    [parcLogReporter_Acquire] are taken as given.  (Acquire returns the
    handle it is given; the reporter's count is not part of the
    logger's storage.) *)
Variable PARCLogLevel : Type.
Variable PARCLogLevel_Off : PARCLogLevel.
Variable PARCLogReporter : Type.
Variable parcLogReporter_Acquire : PARCLogReporter -> PARCLogReporter.

Record PARCLog := {
  hostName : option string;
  applicationName : option string;
  processId : option string;
  messageId : Z;
  level : PARCLogLevel;
  reporter : option PARCLogReporter
}.

Abbreviation memory := (Memory.memory PARCLog).

Definition unassigned : PARCLog :=
  {| hostName := None; applicationName := None; processId := None;
     messageId := 0; level := PARCLogLevel_Off; reporter := None |}.

Definition set_hostName (v : option string) (l : PARCLog) : PARCLog :=
  {| hostName := v; applicationName := applicationName l; processId := processId l;
     messageId := messageId l; level := level l; reporter := reporter l |}.

Definition set_applicationName (v : option string) (l : PARCLog) : PARCLog :=
  {| hostName := hostName l; applicationName := v; processId := processId l;
     messageId := messageId l; level := level l; reporter := reporter l |}.

Definition set_processId (v : option string) (l : PARCLog) : PARCLog :=
  {| hostName := hostName l; applicationName := applicationName l; processId := v;
     messageId := messageId l; level := level l; reporter := reporter l |}.

Definition set_messageId (v : Z) (l : PARCLog) : PARCLog :=
  {| hostName := hostName l; applicationName := applicationName l;
     processId := processId l; messageId := v; level := level l; reporter := reporter l |}.

Definition set_level (v : PARCLogLevel) (l : PARCLog) : PARCLog :=
  {| hostName := hostName l; applicationName := applicationName l;
     processId := processId l; messageId := messageId l; level := v;
     reporter := reporter l |}.

Definition set_reporter (v : option PARCLogReporter) (l : PARCLog) : PARCLog :=
  {| hostName := hostName l; applicationName := applicationName l;
     processId := processId l; messageId := messageId l; level := level l;
     reporter := v |}.

Definition _nilvalue : string := "-".

(** [trapOutOfMemory] is LongBow's out-of-memory trap. *)
Definition trapOutOfMemory {A} (message : string) : outcome A := Trapped message.

Definition parcLog_Create (hostName applicationName processId : option string)
    (reporter : PARCLogReporter) (m : memory) : outcome (option address * memory) :=
  let applicationName := default _nilvalue applicationName in
  let hostName := default _nilvalue hostName in
  let processId := default _nilvalue processId in
  let '(result, m) := parcObject_CreateInstance unassigned m in
  match result with
  | None => trapOutOfMemory "Creating an instance of PARCLog."
  | Some r =>
      let '(h, m) := parcMemory_StringDuplicate hostName (strlen hostName) m in
      let m := update_payload r (set_hostName h) m in
      let '(a, m) := parcMemory_StringDuplicate applicationName (strlen applicationName) m in
      let m := update_payload r (set_applicationName a) m in
      let '(p, m) := parcMemory_StringDuplicate processId (strlen processId) m in
      let m := update_payload r (set_processId p) m in
      let m := update_payload r (set_messageId 0) m in
      let m := update_payload r (set_level PARCLogLevel_Off) m in
      let m := update_payload r (set_reporter (Some (parcLogReporter_Acquire reporter))) m in
      Returned (result, m)
  end.

(** [log->level]; [None] when [log] does not point to a live logger. *)
Definition parcLog_GetLevel (m : memory) (log : address) : option PARCLogLevel :=
  level <$> read_payload m log.

(** [oldLevel = logger->level; logger->level = level; return oldLevel;] *)
Definition parcLog_SetLevel (logger : address) (level : PARCLogLevel) (m : memory)
  : option (PARCLogLevel * memory) :=
  oldLevel ← parcLog_GetLevel m logger ;
  Some (oldLevel, update_payload logger (set_level level) m).

End WithReporter.

End Log.

(* ===================================================================== *)
(** ** The bounded queue (ring buffer N x M) *)
(* ===================================================================== *)

Module RingBuffer.
Import Memory.
Local Open Scope nat_scope.

(** A function pointer: the name of a piece of code. *)
Definition callback : Type := nat.

(** Modelled from the spec: parc_RingBuffer_NxM.c is not among the
    sources, only its test is.  A slot is empty or holds one object
    reference. *)
Inductive slot :=
| Empty
| Filled (item : address).

(** Modelled from the spec: the states of a queue.  A destroyed queue has
    no storage any more. *)
Inductive queue_state :=
| Active
| Draining
| Destroyed.

(** Modelled from the spec: the queue of sections 3 and 4.3: a fixed
    capacity, that many slots, a head and a tail index modulo the
    capacity, the number of queued items, and the destroyer given at
    creation.  Calls are run one after the other, by one thread. *)
Record PARCRingBufferNxM := {
  capacity : nat;
  slots : list slot;
  head : nat;
  tail : nat;
  count : nat;
  state : queue_state;
  destroyer : callback
}.

(** What the test allocates through the object runtime: buffers (the
    items) and the queue. *)
Inductive managed :=
| Buffer (size : nat)
| Ring (r : PARCRingBufferNxM).

Abbreviation memory := (Memory.memory managed).

Definition ring_at (m : memory) (q : address) : option PARCRingBufferNxM :=
  match read_payload m q with
  | Some (Ring r) => Some r
  | _ => None
  end.

(** Modelled from the spec: [parcBuffer_Allocate] (parc_Buffer.c) is the
    runtime's Create for a buffer. *)
Definition parcBuffer_Allocate (size : nat) (m : memory) : option address * memory :=
  parcObject_CreateInstance (Buffer size) m.

(** Modelled from the spec: [parcBuffer_Release] is the runtime's Release
    with a finalizer that has nothing to do. *)
Definition parcBuffer_Release (buffer : address) (m : memory) : outcome memory :=
  parcObject_Release
    (fun p m => match p with
                | Buffer _ => Returned m
                | Ring _ => Trapped "not a PARCBuffer"
                end)
    buffer m.

(** Modelled from the spec: Create(capacity, destroyerCallback); the
    capacity must be at least 1, and the allocation may fail. *)
Definition parcRingBufferNxM_Create (capacity : nat) (destroyer : callback) (m : memory)
  : outcome (option address * memory) :=
  if capacity =? 0 then Trapped "InvalidArgument: capacity must be at least 1"
  else Returned (parcObject_CreateInstance
                   (Ring {| capacity := capacity; slots := replicate capacity Empty;
                            head := 0; tail := 0; count := 0;
                            state := Active; destroyer := destroyer |}) m).

(** Modelled from the spec: Put waits while the queue is full (for ever,
    when no other thread runs); otherwise it takes the tail slot, stores
    the item, advances the tail and increments the count. *)
Definition parcRingBufferNxM_Put (q item : address) (m : memory) : outcome memory :=
  match ring_at m q with
  | Some r =>
      match state r with
      | Active =>
          if count r =? capacity r then Blocked
          else
            Returned
              (update_payload q
                 (fun _ => Ring {| capacity := capacity r;
                                   slots := <[tail r := Filled item]> (slots r);
                                   head := head r;
                                   tail := (tail r + 1) mod capacity r;
                                   count := S (count r);
                                   state := state r; destroyer := destroyer r |}) m)
      | _ => Trapped "the queue accepts no Put"
      end
  | None => Trapped "not a live queue"
  end.

(** Modelled from the spec: Get waits while the queue is empty; otherwise
    it takes the head slot, removes the item, advances the head and
    decrements the count. *)
Definition parcRingBufferNxM_Get (q : address) (m : memory) : outcome (address * memory) :=
  match ring_at m q with
  | Some r =>
      match state r with
      | Active =>
          if count r =? 0 then Blocked
          else
            match slots r !! head r with
            | Some (Filled item) =>
                Returned
                  (item,
                   update_payload q
                     (fun _ => Ring {| capacity := capacity r;
                                       slots := <[head r := Empty]> (slots r);
                                       head := (head r + 1) mod capacity r;
                                       tail := tail r;
                                       count := pred (count r);
                                       state := state r; destroyer := destroyer r |}) m)
            | _ => Trapped "the head slot of a non-empty queue is not filled"
            end
      | _ => Trapped "the queue accepts no Get"
      end
  | None => Trapped "not a live queue"
  end.

(** Modelled from the spec: the slots still filled, in queue order: the
    items found by walking the slots once from the head. *)
Definition queued (r : PARCRingBufferNxM) : list address :=
  omap (fun i => match slots r !! ((head r + i) mod capacity r) with
                 | Some (Filled item) => Some item
                 | _ => None
                 end)
       (seq 0 (capacity r)).

Section WithCallbacks.

(** What a call through a function pointer does. *)
Variable invoke : callback -> address -> memory -> outcome memory.

(** Modelled from the spec: the destroyer is called on each item in turn.
    The result lists the items it has been called with, in the order of
    the calls. *)
Fixpoint drain (d : callback) (items : list address) (m : memory)
  : outcome (list address * memory) :=
  match items with
  | [] => Returned ([], m)
  | item :: rest =>
      m' ← invoke d item m ;
      '(calls, m'') ← drain d rest m' ;
      mret (item :: calls, m'')
  end.

(** Modelled from the spec: the queue goes to Draining, and the
    destroyer is called on every slot still filled, from head to
    tail. *)
Definition _destroy (q : address) (r : PARCRingBufferNxM) (m : memory)
  : outcome (list address * memory) :=
  let m := update_payload q
             (fun _ => Ring {| capacity := capacity r; slots := slots r;
                               head := head r; tail := tail r; count := count r;
                               state := Draining; destroyer := destroyer r |}) m in
  drain (destroyer r) (queued r) m.

(** Modelled from the spec: Release of the queue; the last one destroys
    it and then frees its storage.  The result lists the destroyer's
    calls. *)
Definition parcRingBufferNxM_Release (q : address) (m : memory)
  : outcome (list address * memory) :=
  match objects m !! q with
  | Some {| refcount := n; payload := Ring r |} =>
      match n with
      | 0 => Trapped "release of a queue that is not live"
      | 1 => '(calls, m') ← _destroy q r m ; mret (calls, free q m')
      | S n' =>
          Returned ([], {| objects := <[q := {| refcount := n'; payload := Ring r |}]> (objects m);
                             raw := raw m; available := available m;
                             attempts := attempts m |})
      end
  | _ => Trapped "release of a queue that is not live"
  end.

Fixpoint put_all (q : address) (items : list address) (m : memory) : outcome memory :=
  match items with
  | [] => Returned m
  | item :: rest => m' ← parcRingBufferNxM_Put q item m ; put_all q rest m'
  end.

(** The test case [_destroy], for any capacity, destroyer and items:
    create the queue, put the items, release the queue. *)
Definition create_put_release (capacity : nat) (d : callback) (items : list address)
    (m : memory) : outcome (list address * memory) :=
  '(ring, m) ← parcRingBufferNxM_Create capacity d m ;
  match ring with
  | Some q => m ← put_all q items m ; parcRingBufferNxM_Release q m
  | None => Trapped "no memory for the queue"
  end.

End WithCallbacks.

(** The destroyer of the test, [_testDestoryer]: it releases the buffer. *)
Definition _testDestoryer : callback := 0.

Definition test_code (d : callback) (ptr : address) (m : memory) : outcome memory :=
  parcBuffer_Release ptr m.

(** *** The states of a queue and of memory that the properties speak about *)

(** The item a slot holds, if any. *)
Definition slot_item (s : slot) : option address :=
  match s with
  | Filled item => Some item
  | Empty => None
  end.

(** The queue after the items of [l] have been put into a new queue of
    capacity [cap]. *)
Definition filled (cap : nat) (d : callback) (st : queue_state) (l : list address)
  : PARCRingBufferNxM :=
  {| capacity := cap;
     slots := (Filled <$> l) ++ replicate (cap - length l) Empty;
     head := 0; tail := length l mod cap; count := length l;
     state := st; destroyer := d |}.

(** A buffer that is live and has exactly one owner. *)
Definition sole_buffer (objs : gmap address (object managed)) (item : address) : Prop :=
  exists n, objs !! item = Some {| refcount := 1; payload := Buffer n |}.

(** The objects that are left when those at [items] have been freed, one
    after the other. *)
Definition remove_all (items : list address) (objs : gmap address (object managed))
  : gmap address (object managed) :=
  foldl (fun o a => delete a o) objs items.

(** Three buffers, each with one owner, and room for one more allocation. *)
Definition three_buffers : memory :=
  {| objects := <[1%positive := {| refcount := 1; payload := Buffer 5 |}]>
                  (<[2%positive := {| refcount := 1; payload := Buffer 5 |}]>
                     (<[3%positive := {| refcount := 1; payload := Buffer 5 |}]> ∅));
     raw := 0; available := 1; attempts := 3 |}.

End RingBuffer.

(* ===================================================================== *)
(** ** parc_TimingIntel.h *)
(* ===================================================================== *)

Module TimingIntel.

(** [unsigned] is 32 bits wide on the Intel targets the header is for. *)
Definition is_unsigned (z : Z) : Prop := 0 <= z < 2 ^ 32.

Definition is_uint64 (z : Z) : Prop := 0 <= z < 2 ^ 64.

(** Arithmetic in [uint64_t]: reduction modulo 2^64. *)
Definition to_uint64 (z : Z) : Z := z mod 2 ^ 64.

(** [parcTimingIntel_rdtsc(&hi, &lo)].  The header declares it; its body
    (parc_TimingIntel.c) is not among the sources.  This is what the
    header's comment documents: [hi] receives the high-order and [lo] the
    low-order 32 bits of the time-stamp counter. *)
Definition parcTimingIntel_rdtsc (tsc : Z) : Z * Z :=
  (Z.shiftr tsc 32, Z.land tsc (Z.ones 32)).

(** [(((uint64_t) prefix_cycles_high0 << 32) | prefix_cycles_low0)] *)
Definition _private_parcTiming_CalculateStartTime (cycles_high0 cycles_low0 : Z) : Z :=
  Z.lor (to_uint64 (Z.shiftl cycles_high0 32)) cycles_low0.

(** [(((uint64_t) prefix_cycles_high1 << 32) | prefix_cycles_low1)] *)
Definition _private_parcTiming_CalculateStopTime (cycles_high1 cycles_low1 : Z) : Z :=
  Z.lor (to_uint64 (Z.shiftl cycles_high1 32)) cycles_low1.

(** [(CalculateStopTime(prefix) - CalculateStartTime(prefix))], a
    subtraction of two [uint64_t]. *)
Definition _private_parcTiming_Delta
    (cycles_high0 cycles_low0 cycles_high1 cycles_low1 : Z) : Z :=
  to_uint64 (_private_parcTiming_CalculateStopTime cycles_high1 cycles_low1
             - _private_parcTiming_CalculateStartTime cycles_high0 cycles_low0).

(** [_private_parcTiming_Start] ... [_private_parcTiming_Stop] ...
    [_private_parcTiming_Delta]: the counter is read when it shows [tsc0]
    and again when it shows [tsc1]. *)
Definition measured (tsc0 tsc1 : Z) : Z :=
  let '(cycles_high0, cycles_low0) := parcTimingIntel_rdtsc tsc0 in
  let '(cycles_high1, cycles_low1) := parcTimingIntel_rdtsc tsc1 in
  _private_parcTiming_Delta cycles_high0 cycles_low0 cycles_high1 cycles_low1.

End TimingIntel.

(* ===================================================================== *)
(** ** parc_KeyValue.c on the object store *)
(* ===================================================================== *)

Module KeyValueObjects.
Import Memory.

(** What lives in the store: key/value pairs, and the objects of other
    types that serve as keys and values. *)
Inductive managed :=
| Other (data : Z)
| Pair (key value : option address).

Abbreviation memory := (Memory.memory managed).

(** Code that runs on the store.  The outer [None] is undefined behaviour
    (a read through a pointer that does not point to a live pair); inside
    is how the call ends. *)
Definition C (A : Type) : Type := memory -> option (outcome (A * memory)).

#[export] Instance C_ret : MRet C := fun A a m => Some (Returned (a, m)).

#[export] Instance C_bind : MBind C := fun A B k c m =>
  match c m with
  | Some (Returned (a, m')) => k a m'
  | Some (Trapped reason) => Some (Trapped reason)
  | Some Blocked => Some Blocked
  | None => None
  end.

Definition lift {A} (c : memory -> outcome (A * memory)) : C A := fun m => Some (c m).

(** LongBow's [assertNotNull(pointer, message)]. *)
Definition assertNotNull {A} (pointer : option A) (message : string) : C unit :=
  fun m => match pointer with
           | Some _ => Some (Returned (tt, m))
           | None => Some (Trapped message)
           end.

(** [keyValue->key] and [keyValue->value]. *)
Definition read_pair (keyValue : address) : C (option address * option address) :=
  fun m => match read_payload m keyValue with
           | Some (Pair k v) => Some (Returned ((k, v), m))
           | _ => None
           end.

(** [keyValue->key = k] and [keyValue->value = v], for a [keyValue] that
    points to a pair. *)
Definition write_key (keyValue : address) (k : option address) : C unit :=
  fun m => Some (Returned (tt, update_payload keyValue
                                 (fun p => match p with
                                           | Pair _ v => Pair k v
                                           | Other d => Other d
                                           end) m)).

Definition write_value (keyValue : address) (v : option address) : C unit :=
  fun m => Some (Returned (tt, update_payload keyValue
                                 (fun p => match p with
                                           | Pair k _ => Pair k v
                                           | Other d => Other d
                                           end) m)).

(** Modelled from the spec: [parcObject_Acquire] on a pointer; a NULL
    pointer is not a live object. *)
Definition acquire (object : option address) : C (option address) :=
  match object with
  | Some a => fun m => Some ('(a', m') ← parcObject_Acquire a m ; mret (Some a', m'))
  | None => fun _ => Some (Trapped "acquire of an object that is not live")
  end.

Section WithFinalizers.

(** What the capability table of an object's type does when the object is
    finalized. *)
Variable finalize_object : managed -> memory -> outcome memory.

(** Modelled from the spec: [parcObject_Release(&pointer)] for a key or a
    value. *)
Definition release (object : option address) : C unit :=
  match object with
  | Some a => fun m => Some (m' ← parcObject_Release finalize_object a m ; mret (tt, m'))
  | None => fun _ => Some (Trapped "release of an object that is not live")
  end.

Definition parcKeyValue_Create (key value : option address) : C (option address) :=
  assertNotNull key "Key may not be null in a KeyValue element" ;;
  keyValue ← lift (fun m => Returned (parcObject_CreateInstance (Pair None None) m)) ;
  assertNotNull keyValue "parcMemory_Allocate(%zu) returned NULL" ;;
  match keyValue with
  | Some kv =>
      k ← acquire key ;
      write_key kv k ;;
      write_value kv None ;;
      match value with
      | Some _ => v ← acquire value ; write_value kv v
      | None => mret tt
      end ;;
      mret keyValue
  | None => mret keyValue
  end.

Definition parcKeyValue_SetValue (keyValue value : option address) : C unit :=
  assertNotNull keyValue "Not a valid keyValue" ;;
  match keyValue with
  | Some kv =>
      '(_, oldValue) ← read_pair kv ;
      match value with
      | Some _ => v ← acquire value ; write_value kv v
      | None => write_value kv None
      end ;;
      match oldValue with
      | Some _ => release oldValue
      | None => mret tt
      end
  | None => mret tt
  end.


Definition parcKeyValue_GetValue (keyValue : option address) : C (option address) :=
  assertNotNull keyValue "Not a valid keyValue" ;;
  match keyValue with
  | Some kv => '(_, v) ← read_pair kv ; mret v
  | None => mret None
  end.

Definition parcKeyValue_GetKey (keyValue : option address) : C (option address) :=
  assertNotNull keyValue "Not a valid keyValue" ;;
  match keyValue with
  | Some kv => '(k, _) ← read_pair kv ; mret k
  | None => mret None
  end.

(** The finalizer of a pair.  [parcObject_Release] sets the pointer it is
    given to NULL. *)
Definition _parcKeyValue_Destroy (keyValue : address) : C unit :=
  '(k, _) ← read_pair keyValue ;
  release k ;;
  write_key keyValue None ;;
  '(_, v) ← read_pair keyValue ;
  match v with
  | Some _ => release v ;; write_value keyValue None
  | None => mret tt
  end.

(** Modelled from the spec: [parcKeyValue_Release], the runtime's Release
    for a pair: the last release runs [_parcKeyValue_Destroy] and frees the
    pair. *)
Definition parcKeyValue_Release (keyValue : address) : C unit :=
  fun m =>
    match objects m !! keyValue with
    | Some {| refcount := n; payload := Pair k v |} =>
        match n with
        | O => Some (Trapped "release of an object that is not live")
        | S O =>
            match _parcKeyValue_Destroy keyValue m with
            | Some (Returned (_, m')) => Some (Returned (tt, free keyValue m'))
            | other => other
            end
        | S n' =>
            Some (Returned (tt, {| objects := <[keyValue := {| refcount := n';
                                                               payload := Pair k v |}]>
                                                (objects m);
                                   raw := raw m; available := available m;
                                   attempts := attempts m |}))
        end
    | _ => Some (Trapped "release of an object that is not live")
    end.

End WithFinalizers.

(** The number of references to the object at [a]; 0 if there is no
    object. *)
Definition references (m : memory) (a : address) : nat :=
  match objects m !! a with
  | Some o => refcount o
  | None => O
  end.

(** 1 if the pointer is to [a], else 0. *)
Definition points_to (p : option address) (a : address) : nat :=
  if bool_decide (p = Some a) then 1%nat else O.

(** A pointer that is NULL or points to a live object. *)
Definition null_or_live (m : memory) (p : option address) : Prop :=
  match p with
  | Some a => (1 <= references m a)%nat
  | None => True
  end.

(** The store [m] with other objects. *)
Definition with_objects (m : memory) (objs : gmap address (object managed)) : memory :=
  {| objects := objs; raw := raw m; available := available m; attempts := attempts m |}.

(** An object with one reference more, and with one less. *)
Definition retain (o : object managed) : object managed :=
  {| refcount := S (refcount o); payload := payload o |}.

Definition unretain (o : object managed) : object managed :=
  {| refcount := pred (refcount o); payload := payload o |}.

(** A pair with another key, and with another value. *)
Definition with_key (k : option address) (o : object managed) : object managed :=
  {| refcount := refcount o;
     payload := match payload o with
                | Pair _ v => Pair k v
                | Other d => Other d
                end |}.

Definition with_value (v : option address) (o : object managed) : object managed :=
  {| refcount := refcount o;
     payload := match payload o with
                | Pair k _ => Pair k v
                | Other d => Other d
                end |}.

(** The objects after the object a pointer points to, if any, has gained
    a reference, and after it has lost one. *)
Definition retained (p : option address) (objs : gmap address (object managed))
  : gmap address (object managed) :=
  match p with
  | Some a => alter retain a objs
  | None => objs
  end.

Definition released (p : option address) (objs : gmap address (object managed))
  : gmap address (object managed) :=
  match p with
  | Some a => alter unretain a objs
  | None => objs
  end.

(** The objects after a pair with key [k] and value [value] has been
    created at [kv]. *)
Definition created (kv k : address) (value : option address)
    (objs : gmap address (object managed)) : gmap address (object managed) :=
  let base := alter (with_value None) kv
                (alter (with_key (Some k)) kv
                   (alter retain k
                      (<[kv := {| refcount := 1; payload := Pair None None |}]> objs))) in
  match value with
  | Some v => alter (with_value (Some v)) kv (alter retain v base)
  | None => base
  end.

(** The old value [old] of the pair at [kv] can be replaced by [value]
    without being finalized: it is NULL, or it is another live object that
    is the new value as well or that somebody else holds too. *)
Definition replaceable (m : memory) (kv : address) (value old : option address) : Prop :=
  match old with
  | Some w => w <> kv /\
              ((value = Some w /\ (1 <= references m w)%nat) \/ (2 <= references m w)%nat)
  | None => True
  end.

(** The key [k] and the value [value] of the pair at [kv] are other
    objects than the pair, each held by somebody besides the pair. *)
Definition shared_with (m : memory) (kv k : address) (value : option address) : Prop :=
  k <> kv /\ value <> Some kv /\
  (2 + points_to value k <= references m k)%nat /\
  match value with
  | Some v => (2 <= references m v)%nat
  | None => True
  end.

End KeyValueObjects.

(** Objects that are numbers (see [KeyValue.digit_Equals]), ordered by
    their last digit. *)
Definition digit_Compare (x y : Z) : Z := Z.sgn (x mod 10 - y mod 10).

(** The characters of a C string: those before its first NUL. *)
Definition contents (s : string) : string := CString.strndup s (CString.strlen s).

(** Two instances with the same file name and different passwords. *)
Definition two_identities : IdentityFile.memory :=
  {| Memory.objects := <[1%positive := {| Memory.refcount := 1;
                                   Memory.payload := {| IdentityFile.fileName := Some "id.p12";
                                                 IdentityFile.passWord := Some "one" |} |}]>
                  (<[2%positive := {| Memory.refcount := 1;
                                      Memory.payload := {| IdentityFile.fileName := Some "id.p12";
                                                    IdentityFile.passWord := Some "two" |} |}]> ∅);
     Memory.raw := 4; Memory.available := 0; Memory.attempts := 6 |}.

(** Three instances with the same file name and the same password. *)
Definition three_identities : IdentityFile.memory :=
  {| Memory.objects :=
       <[1%positive := {| Memory.refcount := 1;
                          Memory.payload := {| IdentityFile.fileName := Some "id.p12";
                                               IdentityFile.passWord := Some "one" |} |}]>
         (<[2%positive := {| Memory.refcount := 1;
                             Memory.payload := {| IdentityFile.fileName := Some "id.p12";
                                                  IdentityFile.passWord := Some "one" |} |}]>
            (<[3%positive := {| Memory.refcount := 2;
                                Memory.payload := {| IdentityFile.fileName := Some "id.p12";
                                                     IdentityFile.passWord := Some "one" |} |}]>
               ∅));
     Memory.raw := 6; Memory.available := 0; Memory.attempts := 9 |}.

(** A logger whose levels are numbers, at level 3. *)
Definition one_logger_object : Memory.object (Log.PARCLog nat nat) :=
  {| Memory.refcount := 1;
     Memory.payload := {| Log.hostName := Some "host"; Log.applicationName := Some "app";
                          Log.processId := Some "42"; Log.messageId := 0;
                          Log.level := 3%nat; Log.reporter := Some 7%nat |} |}.

Definition one_logger : Memory.memory (Log.PARCLog nat nat) :=
  {| Memory.objects := <[1%positive := one_logger_object]> ∅;
     Memory.raw := 3; Memory.available := 0; Memory.attempts := 4 |}.

(** A finalizer that has nothing to do. *)
Definition nothing_to_finalize (p : KeyValueObjects.managed) (m : KeyValueObjects.memory)
  : Memory.outcome KeyValueObjects.memory := Memory.Returned m.

(** A key held twice, a value held twice, a pair of the two held once, and
    room for one allocation. *)
Definition pair_store : KeyValueObjects.memory :=
  {| Memory.objects :=
       <[1%positive := {| Memory.refcount := 2; Memory.payload := KeyValueObjects.Other 10 |}]>
         (<[2%positive := {| Memory.refcount := 2;
                             Memory.payload := KeyValueObjects.Other 20 |}]>
            (<[3%positive := {| Memory.refcount := 1;
                                Memory.payload :=
                                  KeyValueObjects.Pair (Some 1%positive) (Some 2%positive) |}]>
               ∅));
     Memory.raw := 0; Memory.available := 1; Memory.attempts := 3 |}.

(* ===================================================================== *)
(** * Properties *)
(* ===================================================================== *)

(** ** Integer conversions *)

Import CInt.

(** Goals about [mod 256] and [/ 256] are linear once the quotient and
    the remainder are named. *)
Ltac euclid := unfold is_uint8, to_uint8, to_int8 in *; cbv zeta in *;
  repeat case_match;
  repeat match goal with
         | H : (_ <? _) = true |- _ => apply Z.ltb_lt in H
         | H : (_ <? _) = false |- _ => apply Z.ltb_ge in H
         end;
  Z.to_euclidean_division_equations; lia.

Lemma to_uint8_range z : is_uint8 (to_uint8 z).
Proof. euclid. Qed.

Lemma to_uint8_id z : is_uint8 z -> to_uint8 z = z.
Proof. euclid. Qed.

Lemma to_int8_range z : -128 <= to_int8 z <= 127.
Proof. euclid. Qed.

Lemma to_int8_small z : -128 <= z <= 127 -> to_int8 z = z.
Proof. euclid. Qed.

(** ** Atomic scalars *)

Import AtomicUint8.

(** Running a guarded entry point on an idle instance: the steps between
    lock and unlock are plain reads and writes. *)
Ltac run_guarded :=
  unfold Fallback.parcAtomicUint8_AddImpl, Fallback.parcAtomicUint8_SubtractImpl,
    Fallback.parcAtomicUint8_CompareAndSwapImpl, Fallback.pthread_mutex_lock,
    Fallback.pthread_mutex_unlock, Fallback.load_value, Fallback.store_value,
    Fallback.idle, mbind, mret, Fallback.M_bind, Fallback.M_ret in *;
  simpl in *.

Lemma Fallback_AddImpl_idle (f : Fallback.PARCAtomicUint8) (addend : Z) :
  Fallback.idle f ->
  Fallback.parcAtomicUint8_AddImpl addend f =
    Some (to_uint8 (Fallback.value f + addend),
          {| Fallback.value := to_uint8 (Fallback.value f + addend);
             Fallback.mutex := Fallback.Unlocked |}).
Proof. destruct f as [v mu]. run_guarded. intros ->. reflexivity. Qed.

Lemma Fallback_SubtractImpl_idle (f : Fallback.PARCAtomicUint8) (subtrahend : Z) :
  Fallback.idle f ->
  Fallback.parcAtomicUint8_SubtractImpl subtrahend f =
    Some (to_uint8 (Fallback.value f - subtrahend),
          {| Fallback.value := to_uint8 (Fallback.value f - subtrahend);
             Fallback.mutex := Fallback.Unlocked |}).
Proof. destruct f as [v mu]. run_guarded. intros ->. reflexivity. Qed.

Lemma Fallback_CompareAndSwapImpl_idle (f : Fallback.PARCAtomicUint8) (predicate newValue : Z) :
  Fallback.idle f ->
  Fallback.parcAtomicUint8_CompareAndSwapImpl predicate newValue f =
    Some (if Fallback.value f =? predicate
          then (true, {| Fallback.value := newValue; Fallback.mutex := Fallback.Unlocked |})
          else (false, f)).
Proof.
  destruct f as [v mu]. run_guarded. intros ->. simpl.
  destruct (v =? predicate); reflexivity.
Qed.

(** An entry point called while the mutex is held does not return. *)
Lemma Fallback_AddImpl_held (v addend : Z) :
  Fallback.parcAtomicUint8_AddImpl addend
    {| Fallback.value := v; Fallback.mutex := Fallback.Locked |} = None.
Proof. reflexivity. Qed.



(** *** Compare *)

Lemma Compare_LockFree (a b : LockFree.PARCAtomicUint8) :
  parcAtomicUint8_Compare (B := LockFree.backend) a b =
    (if to_int8 (a - b) <? 0 then -1 else if to_int8 (a - b) >? 0 then 1 else 0).
Proof. reflexivity. Qed.

(** The result is always one of -1, 0 and 1. *)
Lemma Compare_range (a b : LockFree.PARCAtomicUint8) :
  parcAtomicUint8_Compare (B := LockFree.backend) a b = -1 \/
  parcAtomicUint8_Compare (B := LockFree.backend) a b = 0 \/
  parcAtomicUint8_Compare (B := LockFree.backend) a b = 1.
Proof.
  rewrite Compare_LockFree.
  destruct (to_int8 (a - b) <? 0); [by left |].
  destruct (to_int8 (a - b) >? 0); [by right; right | by right; left].
Qed.

(** It is 0 exactly when the two uint8 values are equal. *)
Lemma Compare_zero_iff (a b : LockFree.PARCAtomicUint8) :
  is_uint8 a -> is_uint8 b ->
  (parcAtomicUint8_Compare (B := LockFree.backend) a b = 0 <-> a = b).
Proof.
  intros Ha Hb. rewrite Compare_LockFree.
  destruct (Z.ltb_spec (to_int8 (a - b)) 0) as [Hlt | Hge].
  - split; [discriminate |]. intros ->. revert Hlt. euclid.
  - rewrite Z.gtb_ltb.
    destruct (Z.ltb_spec 0 (to_int8 (a - b))) as [Hgt | Hle].
    + split; [discriminate |]. intros ->. revert Hgt. euclid.
    + split; [intros _ | done].
      assert (H0 : to_int8 (a - b) = 0) by lia. revert H0. clear Hge Hle. euclid.
Qed.

(** Swapping the arguments negates the result unless the two values are
    exactly 128 apart. *)
Lemma Compare_antisymmetric_unless_128 (a b : LockFree.PARCAtomicUint8) :
  is_uint8 a -> is_uint8 b -> a - b <> 128 -> b - a <> 128 ->
  parcAtomicUint8_Compare (B := LockFree.backend) a b =
    - parcAtomicUint8_Compare (B := LockFree.backend) b a.
Proof.
  intros Ha Hb H1 H2. rewrite !Compare_LockFree, !Z.gtb_ltb.
  assert (Hneg : to_int8 (b - a) = - to_int8 (a - b)) by (clear - Ha Hb H1 H2; euclid).
  rewrite Hneg.
  destruct (Z.ltb_spec (to_int8 (a - b)) 0), (Z.ltb_spec 0 (to_int8 (a - b))),
    (Z.ltb_spec (- to_int8 (a - b)) 0), (Z.ltb_spec 0 (- to_int8 (a - b))); lia.
Qed.

(** More than 128 apart, the larger value is reported as the smaller. *)
Example Compare_200_0 :
  parcAtomicUint8_Compare (B := LockFree.backend) 200 0 = -1 /\
  parcAtomicUint8_Compare (B := LockFree.backend) 0 200 = 1.
Proof. split; reflexivity. Qed.

(** C2. [parcAtomicUint8_Compare] at the scalars 128 and 0: the difference
    128 does not fit the [int8_t] it is stored in and becomes -128, so the
    comparison says -1 in both directions, and swapping the arguments does
    not negate the result. *)
Theorem Compare_128_0_both_negative :
  parcAtomicUint8_Compare (B := LockFree.backend) 128 0 = -1 /\
  parcAtomicUint8_Compare (B := LockFree.backend) 0 128 = -1 /\
  parcAtomicUint8_Compare (B := Fallback.backend)
    (Fallback.parcAtomicUint8_Create 128) (Fallback.parcAtomicUint8_Create 0) = -1 /\
  parcAtomicUint8_Compare (B := Fallback.backend)
    (Fallback.parcAtomicUint8_Create 0) (Fallback.parcAtomicUint8_Create 128) = -1 /\
  parcAtomicUint8_Compare (B := LockFree.backend) 128 0 <>
    - parcAtomicUint8_Compare (B := LockFree.backend) 0 128.
Proof. repeat split; try reflexivity. discriminate. Qed.

(** *** The two builds side by side *)

(** C4. Each operation of an atomic scalar (get, add, subtract,
    compare-and-swap), run on a mutex-guarded instance and on a lock-free
    one that stand for the same scalar, returns in both builds, with the
    same answer, and leaves the two instances standing for the same
    scalar. *)
Theorem backends_agree
    (op : operation) (f : Fallback.PARCAtomicUint8) (l : LockFree.PARCAtomicUint8) :
  same_scalar f l ->
  exists (r : answer) (f' : Fallback.PARCAtomicUint8) (l' : LockFree.PARCAtomicUint8),
    perform (B := Fallback.backend) op f = Some (r, f') /\
    perform (B := LockFree.backend) op l = Some (r, l') /\
    same_scalar f' l'.
Proof.
  intros [Hv Hidle]. subst l.
  destruct op as [| d | d | e n]; cbn [perform].
  - exists (AValue (Fallback.value f)), f, (Fallback.value f). by repeat split.
  - cbn. rewrite (Fallback_AddImpl_idle f d Hidle). cbn.
    eexists _, _, _. by repeat split.
  - cbn. rewrite (Fallback_SubtractImpl_idle f d Hidle). cbn.
    eexists _, _, _. by repeat split.
  - cbn. rewrite (Fallback_CompareAndSwapImpl_idle f e n Hidle).
    unfold LockFree.parcAtomicUint8_CompareAndSwapImpl, LockFree.__sync_bool_compare_and_swap.
    destruct (Fallback.value f =? e); cbn; eexists _, _, _; by repeat split.
Qed.

Lemma backends_agree_witness :
  same_scalar (Fallback.parcAtomicUint8_Create 250) 250 /\
  exists (r : answer) (f' : Fallback.PARCAtomicUint8) (l' : LockFree.PARCAtomicUint8),
    perform (B := Fallback.backend) (OpAdd 10) (Fallback.parcAtomicUint8_Create 250)
      = Some (r, f') /\
    perform (B := LockFree.backend) (OpAdd 10) 250 = Some (r, l') /\
    same_scalar f' l'.
Proof.
  assert (H : same_scalar (Fallback.parcAtomicUint8_Create 250) 250)
    by (split; reflexivity).
  split; [exact H |].
  exact (backends_agree (OpAdd 10) (Fallback.parcAtomicUint8_Create 250) 250 H).
Defined.

(** C5. On a scalar that holds v, add(d) returns and stores (v + d) mod 2^8
    and subtract(d) returns and stores (v - d) mod 2^8.  Both return for
    every v and d: in the lock-free build always, in the mutex-guarded
    build whenever the instance's mutex is free. *)
Theorem add_subtract_modular (v d : Z) (f : Fallback.PARCAtomicUint8) :
  Fallback.idle f ->
  Fallback.value f = v ->
  LockFree.parcAtomicUint8_AddImpl v d = ((v + d) mod 2 ^ 8, (v + d) mod 2 ^ 8) /\
  LockFree.parcAtomicUint8_SubtractImpl v d = ((v - d) mod 2 ^ 8, (v - d) mod 2 ^ 8) /\
  Fallback.parcAtomicUint8_AddImpl d f =
    Some ((v + d) mod 2 ^ 8,
          {| Fallback.value := (v + d) mod 2 ^ 8; Fallback.mutex := Fallback.Unlocked |}) /\
  Fallback.parcAtomicUint8_SubtractImpl d f =
    Some ((v - d) mod 2 ^ 8,
          {| Fallback.value := (v - d) mod 2 ^ 8; Fallback.mutex := Fallback.Unlocked |}).
Proof.
  intros Hidle <-.
  rewrite (Fallback_AddImpl_idle f d Hidle), (Fallback_SubtractImpl_idle f d Hidle).
  change (2 ^ 8) with 256. by repeat split.
Qed.

Lemma add_subtract_modular_witness :
  Fallback.idle (Fallback.parcAtomicUint8_Create 250) /\
  LockFree.parcAtomicUint8_AddImpl 250 10 = (4, 4) /\
  LockFree.parcAtomicUint8_SubtractImpl 250 251 = (255, 255) /\
  Fallback.parcAtomicUint8_AddImpl 10 (Fallback.parcAtomicUint8_Create 250) =
    Some (4, Fallback.parcAtomicUint8_Create 4) /\
  Fallback.parcAtomicUint8_SubtractImpl 251 (Fallback.parcAtomicUint8_Create 250) =
    Some (255, Fallback.parcAtomicUint8_Create 255).
Proof.
  split; [reflexivity |].
  pose proof (add_subtract_modular 250 10 (Fallback.parcAtomicUint8_Create 250)
                eq_refl eq_refl) as (H1 & _ & H3 & _).
  pose proof (add_subtract_modular 250 251 (Fallback.parcAtomicUint8_Create 250)
                eq_refl eq_refl) as (_ & H2 & _ & H4).
  split; [exact H1 |]. split; [exact H2 |]. split; [exact H3 | exact H4].
Defined.

(** ** Key/value pairs *)

Import KeyValue.

(** C7. If the objects' Equals and HashCode satisfy the hash/equals
    contract, then two key/value pairs that [parcKeyValue_Equals] finds
    equal have the same [parcKeyValue_HashCode]. *)
Theorem parcKeyValue_Equals_same_HashCode
    {PARCObject : Type} `{EqDecision PARCObject}
    (parcObject_Equals : PARCObject -> PARCObject -> bool)
    (parcObject_HashCode : PARCObject -> Z)
    (a b : parc_key_value PARCObject) :
  hash_equals_contract parcObject_Equals parcObject_HashCode ->
  parcKeyValue_Equals parcObject_Equals a b = true ->
  parcKeyValue_HashCode parcObject_HashCode a = parcKeyValue_HashCode parcObject_HashCode b.
Proof.
  intros Hcontract Heq. unfold parcKeyValue_HashCode. apply Hcontract.
  unfold parcKeyValue_Equals in Heq.
  destruct (value a), (value b); apply andb_true_iff in Heq; tauto.
Qed.

Lemma digit_contract : hash_equals_contract digit_Equals digit_HashCode.
Proof. intros x y H. by apply Z.eqb_eq in H. Qed.

Lemma parcKeyValue_Equals_same_HashCode_witness :
  hash_equals_contract digit_Equals digit_HashCode /\
  parcKeyValue_Equals digit_Equals
    {| key := 13; value := Some 4 |} {| key := 23; value := Some 14 |} = true /\
  parcKeyValue_HashCode digit_HashCode {| key := 13; value := Some 4 |} =
    parcKeyValue_HashCode digit_HashCode {| key := 23; value := Some 14 |}.
Proof.
  split; [exact digit_contract |]. split; [reflexivity |].
  apply (parcKeyValue_Equals_same_HashCode digit_Equals digit_HashCode
           {| key := 13; value := Some 4 |} {| key := 23; value := Some 14 |}
           digit_contract).
  reflexivity.
Defined.

(** C8. For every non-null key/value pair a, [parcKeyValue_Compare] gives 1
    for (a, NULL), -1 for (NULL, a), and 0 for (NULL, NULL). *)
Theorem parcKeyValue_Compare_null
    {PARCObject : Type} (parcObject_Compare : PARCObject -> PARCObject -> Z)
    (a : parc_key_value PARCObject) :
  parcKeyValue_Compare parcObject_Compare (Some a) None = 1 /\
  parcKeyValue_Compare parcObject_Compare None (Some a) = -1 /\
  parcKeyValue_Compare parcObject_Compare None None = 0.
Proof. repeat split. Qed.

(** ** Identity files *)

Import Memory CString IdentityFile.

Lemma strcmp_swap (s1 s2 : string) : strcmp s2 s1 = - strcmp s1 s2.
Proof.
  revert s2. induction s1 as [| c1 r1 IH]; intros [| c2 r2]; simpl; try lia.
  rewrite (Z.eqb_sym (code c2) (code c1)).
  destruct (Z.eqb_spec (code c1) (code c2)) as [Heq | Hne]; [| lia].
  unfold is_nul. rewrite Heq. destruct (code c2 =? 0); [lia | apply IH].
Qed.

Lemma strcmp_refl (s : string) : strcmp s s = 0.
Proof.
  induction s as [| c r IH]; simpl; [done |].
  rewrite Z.eqb_refl. by destruct (is_nul c).
Qed.

Lemma strcmp_ptr_swap (s1 s2 : option string) :
  strcmp_ptr s2 s1 = Z.opp <$> strcmp_ptr s1 s2.
Proof.
  destruct s1 as [x |], s2 as [y |]; simpl; try done.
  by rewrite strcmp_swap.
Qed.

Lemma nonzero_opp (c : Z) : negb (- c =? 0) = negb (c =? 0).
Proof.
  destruct (Z.eqb_spec c 0) as [-> | Hne]; [done |].
  destruct (Z.eqb_spec (- c) 0); [lia | done].
Qed.

Lemma parcIdentityFile_Equals_same (m : memory) (a : option address) :
  parcIdentityFile_Equals m a a = Some true.
Proof. unfold parcIdentityFile_Equals. by rewrite bool_decide_eq_true_2. Qed.

Lemma parcIdentityFile_Equals_swap (m : memory) (a b : option address) :
  parcIdentityFile_Equals m a b = parcIdentityFile_Equals m b a.
Proof.
  unfold parcIdentityFile_Equals.
  destruct (decide (a = b)) as [-> | Hne]; [done |].
  rewrite !bool_decide_eq_false_2 by congruence.
  destruct a as [a' |], b as [b' |]; try done.
  destruct (parcIdentityFile_GetFileName m a') as [fa |],
           (parcIdentityFile_GetFileName m b') as [fb |]; simpl; try done.
  rewrite (strcmp_ptr_swap fa fb).
  destruct (strcmp_ptr fa fb) as [c |]; simpl; [| done].
  rewrite nonzero_opp. destruct (negb (c =? 0)); [done |].
  destruct (parcIdentityFile_GetPassWord m a') as [pa |],
           (parcIdentityFile_GetPassWord m b') as [pb |]; simpl; try done.
  rewrite (strcmp_ptr_swap pa pb).
  destruct (strcmp_ptr pa pb) as [c' |]; simpl; [| done].
  by rewrite nonzero_opp.
Qed.

(** C9. [parcIdentityFile_Equals] is reflexive (true on (x, x) for every
    non-null x), symmetric (the same on (x, y) and on (y, x), for all
    pointers x and y, null or not), and false on (x, NULL) for every
    non-null x. *)
Theorem parcIdentityFile_Equals_laws (m : memory) :
  (forall x : address, parcIdentityFile_Equals m (Some x) (Some x) = Some true) /\
  (forall x y : option address,
     parcIdentityFile_Equals m x y = parcIdentityFile_Equals m y x) /\
  (forall x : address, parcIdentityFile_Equals m (Some x) None = Some false).
Proof.
  split; [| split].
  - intros x. apply parcIdentityFile_Equals_same.
  - apply parcIdentityFile_Equals_swap.
  - intros x. reflexivity.
Qed.

(** C10. [parcIdentityFile_Equals] on (NULL, NULL) is true: the test
    [a == b] comes before the tests for NULL.  (With one argument NULL and
    the other not, it is false.) *)
Theorem parcIdentityFile_Equals_null_null (m : memory) :
  parcIdentityFile_Equals m None None = Some true /\
  (forall x : address,
     parcIdentityFile_Equals m (Some x) None = Some false /\
     parcIdentityFile_Equals m None (Some x) = Some false).
Proof. split; [reflexivity | intros x; split; reflexivity]. Qed.

(** Two distinct live instances are equal exactly when both of their
    strings are. *)
Lemma parcIdentityFile_Equals_fields (m : memory) (a b : address)
    (fa fb pa pb : string) :
  a <> b ->
  read_payload m a = Some {| fileName := Some fa; passWord := Some pa |} ->
  read_payload m b = Some {| fileName := Some fb; passWord := Some pb |} ->
  parcIdentityFile_Equals m (Some a) (Some b) =
    Some ((strcmp fa fb =? 0) && (strcmp pa pb =? 0)).
Proof.
  intros Hne Ha Hb. unfold parcIdentityFile_Equals.
  rewrite bool_decide_eq_false_2 by congruence.
  unfold parcIdentityFile_GetFileName, parcIdentityFile_GetPassWord.
  rewrite Ha, Hb. simpl.
  destruct (strcmp fa fb =? 0); simpl; [| done].
  by destruct (strcmp pa pb =? 0).
Qed.

(** ** Factories when memory runs out *)




(** When memory suffices, both factories return a live instance whose
    strings are copies of the arguments ("-" standing for a NULL one). *)
Example parcIdentityFile_Create_room :
  exists a m',
    parcIdentityFile_Create "identity.p12" "secret" (room 3) = (Some a, m') /\
    read_payload m' a =
      Some {| fileName := Some "identity.p12"; passWord := Some "secret" |} /\
    parcMemory_Outstanding m' = 3%nat.
Proof. eexists _, _. split; [reflexivity |]. split; vm_compute; reflexivity. Qed.

Example parcLog_Create_room :
  exists a m',
    Log.parcLog_Create nat 0%nat nat id None (Some "app") None 7%nat (room 4)
      = Returned (Some a, m') /\
    read_payload m' a =
      Some {| Log.hostName := Some "-"; Log.applicationName := Some "app";
              Log.processId := Some "-"; Log.messageId := 0; Log.level := 0%nat;
              Log.reporter := Some 7%nat |}.
Proof. eexists _, _. split; [reflexivity |]. vm_compute. reflexivity. Qed.

(** The copies of the strings are not checked: with room for the instance
    only, [parcIdentityFile_Create] returns an instance both of whose
    strings are NULL. *)
Example parcIdentityFile_Create_strings_unchecked :
  exists a m',
    parcIdentityFile_Create "identity.p12" "secret" (room 1) = (Some a, m') /\
    read_payload m' a = Some {| fileName := None; passWord := None |}.
Proof. eexists _, _. split; [reflexivity |]. vm_compute. reflexivity. Qed.

(** ** The bounded queue *)

Import RingBuffer.

Section QueueFacts.
Local Open Scope nat_scope.

Lemma omap_cons {A B} (f : A -> option B) (x : A) (l : list A) :
  omap f (x :: l) = match f x with
                    | Some y => y :: omap f l
                    | None => omap f l
                    end.
Proof. reflexivity. Qed.

Lemma omap_seq_agree {A} (f g : nat -> option A) (k n : nat) :
  (forall i, k <= i < k + n -> f i = g i) ->
  omap f (seq k n) = omap g (seq k n).
Proof.
  revert k. induction n as [| n IH]; intros k Hfg; [done |].
  cbn [seq]. rewrite !omap_cons, (Hfg k) by lia. rewrite (IH (S k)); [done |].
  intros i Hi. apply Hfg. lia.
Qed.

Lemma omap_seq_lookup (pre l : list slot) :
  omap (fun i => (pre ++ l) !! i ≫= slot_item) (seq (length pre) (length l))
  = omap slot_item l.
Proof.
  revert pre. induction l as [| s l IH]; intros pre; [done |].
  cbn [length seq]. rewrite !omap_cons, list_lookup_middle by done.
  specialize (IH (pre ++ [s])).
  rewrite <- app_assoc, length_app in IH. cbn [length app] in IH.
  rewrite Nat.add_1_r in IH. by rewrite IH.
Qed.

Lemma omap_slot_item_Filled (l : list address) :
  omap slot_item (Filled <$> l) = l.
Proof.
  induction l as [| a l IH]; [done |].
  rewrite fmap_cons, omap_cons. cbn [slot_item]. by rewrite IH.
Qed.

Lemma omap_slot_item_Empty (n : nat) :
  omap slot_item (replicate n Empty) = [].
Proof.
  induction n as [| n IH]; [done |].
  rewrite replicate_S, omap_cons. exact IH.
Qed.

(** Walking a queue that was filled from new finds the items in the
    order in which they were put. *)
Lemma queued_filled (cap : nat) (d : callback) (st : queue_state) (l : list address) :
  length l <= cap -> queued (filled cap d st l) = l.
Proof.
  intros Hlen. unfold queued. cbn [capacity slots head filled].
  set (sl := (Filled <$> l) ++ replicate (cap - length l) Empty).
  assert (Hsl : length sl = cap).
  { unfold sl. rewrite length_app, length_fmap, length_replicate. lia. }
  rewrite (omap_seq_agree _ (fun i => ([] ++ sl) !! i ≫= slot_item)).
  - pose proof (omap_seq_lookup [] sl) as Hwalk.
    change (length (@nil slot)) with 0 in Hwalk. rewrite Hsl in Hwalk. rewrite Hwalk.
    unfold sl. by rewrite omap_app, omap_slot_item_Filled, omap_slot_item_Empty, app_nil_r.
  - intros i Hi. rewrite Nat.add_0_l, Nat.mod_small by lia. simpl.
    destruct (sl !! i) as [[| item] |]; done.
Qed.

(** One more item in a queue that has room for it. *)
Lemma filled_snoc_slots (cap : nat) (l : list address) (item : address) :
  length l < cap ->
  <[length l mod cap := Filled item]>
    ((Filled <$> l) ++ replicate (cap - length l) Empty)
  = (Filled <$> (l ++ [item])) ++ replicate (cap - length (l ++ [item])) Empty.
Proof.
  intros Hlt. rewrite Nat.mod_small by done.
  rewrite insert_app_r_alt by (rewrite length_fmap; lia).
  rewrite length_fmap, Nat.sub_diag, length_app. simpl.
  replace (cap - length l) with (S (cap - (length l + 1))) by lia.
  rewrite fmap_app, <- app_assoc. done.
Qed.

Lemma filled_snoc_tail (cap : nat) (l : list address) (item : address) :
  length l < cap ->
  (length l mod cap + 1) mod cap = length (l ++ [item]) mod cap.
Proof.
  intros Hlt. rewrite (Nat.mod_small (length l)) by done.
  by rewrite length_app.
Qed.

Variable invoke : callback -> address -> memory -> outcome memory.

(** Putting [rest] after [done]: as long as everything fits, no Put
    waits, and the queue holds [done ++ rest]. *)
Lemma put_all_filled (q : address) (cap : nat) (d : callback)
    (rest done : list address) (objs : gmap address (object managed)) (rw av att : nat) :
  length done + length rest <= cap ->
  put_all q rest
    {| objects := <[q := {| refcount := 1; payload := Ring (filled cap d Active done) |}]> objs;
       raw := rw; available := av; attempts := att |}
  = Returned
      {| objects := <[q := {| refcount := 1;
                              payload := Ring (filled cap d Active (done ++ rest)) |}]> objs;
         raw := rw; available := av; attempts := att |}.
Proof.
  revert done. induction rest as [| item rest IH]; intros done Hlen.
  - by rewrite app_nil_r.
  - simpl in Hlen. cbn [put_all].
    unfold parcRingBufferNxM_Put, ring_at, read_payload. cbn [objects].
    rewrite lookup_insert_eq. cbn [fmap option_fmap option_map payload state filled count capacity].
    destruct (Nat.eqb_spec (length done) cap) as [Heq | _]; [lia |].
    unfold update_payload. cbn [objects raw available attempts refcount payload].
    rewrite alter_insert_eq. cbn [refcount].
    cbn [slots tail head destroyer filled].
    rewrite (filled_snoc_slots cap done item), (filled_snoc_tail cap done item) by lia.
    replace (S (length done)) with (length (done ++ [item]))
      by (rewrite length_app; simpl; lia).
    change (mbind ?k (Returned ?x)) with (k x). cbv beta.
    fold (filled cap d Active (done ++ [item])).
    rewrite (IH (done ++ [item])) by (rewrite length_app; simpl; lia).
    by rewrite <- app_assoc.
Qed.

Lemma sole_buffer_delete (objs : gmap address (object managed)) (a item : address) :
  a <> item -> sole_buffer objs item -> sole_buffer (delete a objs) item.
Proof. intros Hne [sz H]. exists sz. by rewrite lookup_delete_ne. Qed.

Lemma sole_buffer_insert (objs : gmap address (object managed)) (q item : address)
    (o : object managed) :
  objs !! q = None -> sole_buffer objs item -> sole_buffer (<[q := o]> objs) item.
Proof.
  intros Hq [sz H]. exists sz.
  rewrite lookup_insert_ne; [done | congruence].
Qed.

Lemma sole_buffers_delete (objs : gmap address (object managed)) (a : address)
    (items : list address) :
  a ∉ items -> Forall (sole_buffer objs) items ->
  Forall (sole_buffer (delete a objs)) items.
Proof.
  intros Hnotin Hall. rewrite Forall_forall in *. intros item Hin.
  apply sole_buffer_delete; [| by apply Hall].
  intros ->. by apply Hnotin.
Qed.

Lemma delete_remove_all (q : address) (items : list address)
    (objs : gmap address (object managed)) :
  delete q (remove_all items objs) = remove_all items (delete q objs).
Proof.
  revert objs. induction items as [| a items IH]; intros objs; [done |].
  cbn [remove_all foldl]. fold (remove_all items (delete a objs)).
  fold (remove_all items (delete a (delete q objs))).
  by rewrite IH, delete_delete.
Qed.

Lemma size_remove_all (items : list address) (objs : gmap address (object managed)) :
  NoDup items -> Forall (sole_buffer objs) items ->
  size (remove_all items objs) + length items = size objs.
Proof.
  revert objs. induction items as [| a items IH]; intros objs Hnd Hall.
  - cbn. lia.
  - apply NoDup_cons in Hnd as [Hnotin Hnd].
    apply Forall_cons in Hall as [[sz Ha] Hall].
    cbn [remove_all foldl length]. fold (remove_all items (delete a objs)).
    pose proof (IH (delete a objs) Hnd (sole_buffers_delete objs a items Hnotin Hall)) as Hsz.
    rewrite map_size_delete, Ha in Hsz. simpl in Hsz.
    assert (Hpos : size objs <> 0).
    { intros H0. apply map_size_empty_inv in H0. subst objs.
      by rewrite lookup_empty in Ha. }
    lia.
Qed.

Lemma remove_all_lookup (items : list address) (objs : gmap address (object managed))
    (item : address) :
  item ∈ items -> remove_all items objs !! item = None.
Proof.
  revert objs. induction items as [| a items IH]; intros objs Hin.
  - by apply elem_of_nil in Hin.
  - cbn [remove_all foldl]. fold (remove_all items (delete a objs)).
    apply elem_of_cons in Hin as [-> | Hin]; [| by apply IH].
    rewrite <- delete_remove_all. apply lookup_delete_eq.
Qed.

(** Releasing a buffer that has one owner frees it. *)
Lemma parcBuffer_Release_sole (item : address) (objs : gmap address (object managed))
    (rw av att : nat) :
  sole_buffer objs item ->
  parcBuffer_Release item {| objects := objs; raw := rw; available := av; attempts := att |}
  = Returned {| objects := delete item objs; raw := rw; available := S av; attempts := att |}.
Proof.
  intros [sz H]. unfold parcBuffer_Release, parcObject_Release. cbn [objects].
  rewrite H. reflexivity.
Qed.

(** A destroyer that releases, called on buffers that have one owner
    each: every call returns, and the buffers are gone. *)
Lemma drain_release (d : callback) (items : list address)
    (objs : gmap address (object managed)) (rw av att : nat) :
  (forall item m, invoke d item m = parcBuffer_Release item m) ->
  NoDup items ->
  Forall (sole_buffer objs) items ->
  drain invoke d items {| objects := objs; raw := rw; available := av; attempts := att |}
  = Returned (items, {| objects := remove_all items objs; raw := rw;
                        available := av + length items; attempts := att |}).
Proof.
  intros Hd. revert objs av. induction items as [| a items IH]; intros objs av Hnd Hall.
  - cbn. by rewrite Nat.add_0_r.
  - apply NoDup_cons in Hnd as [Hnotin Hnd].
    apply Forall_cons in Hall as [Ha Hall].
    cbn [drain]. rewrite Hd, (parcBuffer_Release_sole a objs rw av att Ha).
    change (mbind ?k (Returned ?x)) with (k x). cbv beta.
    rewrite (IH (delete a objs) (S av) Hnd (sole_buffers_delete objs a items Hnotin Hall)).
    change (mbind ?k (Returned ?x)) with (k x). cbv beta iota.
    cbn [remove_all foldl length]. unfold mret, outcome_ret.
    by replace (S av + length items) with (av + S (length items)) by lia.
Qed.

(** Whatever the destroyer does, as long as its calls return it is called
    on the given items, in their order, and on nothing else. *)
Lemma drain_calls (d : callback) (items : list address) (m : memory) :
  (forall item m0, exists m1, invoke d item m0 = Returned m1) ->
  exists m', drain invoke d items m = Returned (items, m').
Proof.
  intros Hd. revert m. induction items as [| a items IH]; intros m.
  - by exists m.
  - cbn [drain]. destruct (Hd a m) as [m1 ->].
    change (mbind ?k (Returned ?x)) with (k x). cbv beta.
    destruct (IH m1) as [m' ->]. by exists m'.
Qed.

(** So for any destroyer whose calls return, releasing a queue that was
    filled from new calls it once with each item that was put, in the
    order of the puts. *)
Lemma release_calls_each_item (d : callback) (cap : nat) (items : list address)
    (m : memory) :
  1 <= cap -> length items <= cap -> 1 <= available m ->
  (forall item m0, exists m1, invoke d item m0 = Returned m1) ->
  exists m', create_put_release invoke cap d items m = Returned (items, m').
Proof.
  intros Hcap Hlen Hav Hd. destruct m as [objs rw av att]. cbn [available] in Hav.
  destruct av as [| av]; [lia |].
  unfold create_put_release, parcRingBufferNxM_Create.
  destruct (Nat.eqb_spec cap 0) as [H0 | _]; [lia |].
  unfold parcObject_CreateInstance. cbn [available objects raw attempts].
  change (mbind ?k (Returned ?x)) with (k x). cbv beta iota.
  assert (Hnew : {| capacity := cap; slots := replicate cap Empty;
                    head := 0; tail := 0; count := 0; state := Active; destroyer := d |}
                 = filled cap d Active []).
  { unfold filled. cbn [length fmap list_fmap app].
    by rewrite Nat.sub_0_r, Nat.Div0.mod_0_l. }
  rewrite Hnew, (put_all_filled _ cap d items [] objs rw av (S att)) by (simpl; lia).
  change (mbind ?k (Returned ?x)) with (k x). cbv beta. rewrite app_nil_l.
  unfold parcRingBufferNxM_Release. cbn [objects]. rewrite lookup_insert_eq.
  unfold _destroy. cbn [destroyer filled].
  fold (filled cap d Active items). rewrite (queued_filled cap d Active items Hlen).
  match goal with
  | |- context [drain invoke d items ?m0] => destruct (drain_calls d items m0 Hd) as [m' ->]
  end.
  change (mbind ?k (Returned ?x)) with (k x). cbv beta iota.
  by eexists.
Qed.

End QueueFacts.

(** C3. Create a queue of capacity at least 1 whose destroyer releases the
    item it is given (as the test's does), put M items into it, M at most
    the capacity, each a live buffer that nobody else holds, and release the
    queue without any Get.  Then every call returns; the destroyer is
    called exactly M times, once with each item, in the order in which the
    items were put; the M items and the queue are freed and nothing else
    is allocated, so that, if the items were all that was outstanding
    before, nothing is outstanding afterwards. *)
Theorem destroy_drains_queue
    (invoke : callback -> address -> memory -> outcome memory) (d : callback)
    (capacity : nat) (items : list address) (m : memory) :
  (1 <= capacity)%nat ->
  (length items <= capacity)%nat ->
  (forall item m', invoke d item m' = parcBuffer_Release item m') ->
  NoDup items ->
  Forall (sole_buffer (objects m)) items ->
  (1 <= available m)%nat ->
  exists m',
    create_put_release invoke capacity d items m = Returned (items, m') /\
    (forall item, item ∈ items -> objects m' !! item = None) /\
    (parcMemory_Outstanding m' + length items = parcMemory_Outstanding m)%nat /\
    (parcMemory_Outstanding m = length items -> parcMemory_Outstanding m' = 0%nat).
Proof.
  intros Hcap Hlen Hd Hnd Hall Hav.
  destruct m as [objs rw av att]. cbn [objects available] in *.
  destruct av as [| av]; [lia |].
  set (q := fresh (dom objs)).
  assert (Hq : objs !! q = None) by (apply not_elem_of_dom, is_fresh).
  unfold create_put_release, parcRingBufferNxM_Create.
  destruct (Nat.eqb_spec capacity 0) as [H0 | _]; [lia |].
  unfold parcObject_CreateInstance. cbn [available objects raw attempts].
  change (mbind ?k (Returned ?x)) with (k x). cbv beta iota. fold q.
  assert (Hnew : {| RingBuffer.capacity := capacity; slots := replicate capacity Empty;
                    head := 0; tail := 0; count := 0; state := Active; destroyer := d |}
                 = filled capacity d Active []).
  { unfold filled. cbn [length fmap list_fmap app].
    by rewrite Nat.sub_0_r, Nat.Div0.mod_0_l. }
  rewrite Hnew, (put_all_filled q capacity d items [] objs rw av (S att)) by (simpl; lia).
  change (mbind ?k (Returned ?x)) with (k x). cbv beta. rewrite app_nil_l.
  unfold parcRingBufferNxM_Release. cbn [objects]. rewrite lookup_insert_eq.
  unfold _destroy, update_payload. cbn [objects raw available attempts].
  rewrite alter_insert_eq. cbn [refcount payload].
  cbn [RingBuffer.capacity slots head tail count destroyer filled].
  fold (filled capacity d Draining items).
  rewrite (queued_filled capacity d Active items Hlen).
  rewrite (drain_release invoke d items _ rw av (S att) Hd Hnd).
  2:{ rewrite Forall_forall in *. intros item Hin.
      apply sole_buffer_insert; [done | by apply Hall]. }
  change (mbind ?k (Returned ?x)) with (k x). cbv beta iota.
  eexists. split; [reflexivity |].
  unfold parcMemory_Outstanding, free. cbn [objects raw].
  rewrite delete_remove_all, delete_insert_id by done.
  pose proof (size_remove_all items objs Hnd Hall) as Hsize.
  split; [| split].
  - intros item Hin. by apply remove_all_lookup.
  - lia.
  - lia.
Qed.

Lemma three_items_NoDup : NoDup [1%positive; 2%positive; 3%positive].
Proof. apply (bool_decide_unpack _). vm_compute. exact I. Qed.

Lemma destroy_drains_queue_witness :
  (1 <= 4)%nat /\
  (length [1%positive; 2%positive; 3%positive] <= 4)%nat /\
  (forall item m', test_code _testDestoryer item m' = parcBuffer_Release item m') /\
  NoDup [1%positive; 2%positive; 3%positive] /\
  Forall (sole_buffer (objects three_buffers)) [1%positive; 2%positive; 3%positive] /\
  (1 <= available three_buffers)%nat /\
  exists m',
    create_put_release test_code 4 _testDestoryer [1%positive; 2%positive; 3%positive]
      three_buffers
    = Returned ([1%positive; 2%positive; 3%positive], m') /\
    (forall item, item ∈ [1%positive; 2%positive; 3%positive] -> objects m' !! item = None) /\
    (parcMemory_Outstanding m' + 3 = parcMemory_Outstanding three_buffers)%nat /\
    (parcMemory_Outstanding three_buffers = 3%nat -> parcMemory_Outstanding m' = 0%nat).
Proof.
  pose proof three_items_NoDup as Hnd.
  assert (Hall : Forall (sole_buffer (objects three_buffers))
                   [1%positive; 2%positive; 3%positive]).
  { repeat apply Forall_cons_2; [exists 5%nat .. | apply Forall_nil_2]; reflexivity. }
  split; [lia |]. split; [simpl; lia |]. split; [reflexivity |].
  split; [exact Hnd |]. split; [exact Hall |]. split; [simpl; lia |].
  apply (destroy_drains_queue test_code _testDestoryer 4
           [1%positive; 2%positive; 3%positive] three_buffers);
    [lia | simpl; lia | reflexivity | exact Hnd | exact Hall | simpl; lia].
Defined.

(** In that run nothing is outstanding at the end. *)
Example three_buffers_drained :
  exists m',
    create_put_release test_code 4 _testDestoryer [1%positive; 2%positive; 3%positive]
      three_buffers
    = Returned ([1%positive; 2%positive; 3%positive], m') /\
    parcMemory_Outstanding m' = 0%nat.
Proof. eexists. split; vm_compute; reflexivity. Qed.

(** The test case [_destroy] as it is written: a queue of capacity 128, one
    buffer of 5 bytes, allocated after the queue, put and never got. *)
Example test_destroy :
  exists ring buffer m1 m2 m3 m4,
    parcRingBufferNxM_Create 128 _testDestoryer (room 2) = Returned (Some ring, m1) /\
    parcBuffer_Allocate 5 m1 = (Some buffer, m2) /\
    parcRingBufferNxM_Put ring buffer m2 = Returned m3 /\
    parcRingBufferNxM_Release test_code ring m3 = Returned ([buffer], m4) /\
    parcMemory_Outstanding m4 = 0%nat.
Proof.
  eexists _, _, _, _, _, _.
  split; [reflexivity |]. split; [vm_compute; reflexivity |].
  split; [vm_compute; reflexivity |]. split; vm_compute; reflexivity.
Qed.

(** A queue cannot be created with capacity 0, and a Put into a full queue
    does not return when nobody gets. *)
Example create_capacity_0 :
  parcRingBufferNxM_Create 0 _testDestoryer (room 2)
    = Trapped "InvalidArgument: capacity must be at least 1".
Proof. reflexivity. Qed.

Example put_into_full_queue :
  create_put_release test_code 2 _testDestoryer [1%positive; 2%positive; 3%positive]
    three_buffers = Blocked.
Proof. vm_compute. reflexivity. Qed.


(* ===================================================================== *)
(** * Further properties of the code *)
(* ===================================================================== *)

(** ** Timing macros *)

Lemma lor_high_low (hi lo : Z) :
  0 <= lo < 2 ^ 32 -> Z.lor (hi * 2 ^ 32) lo = hi * 2 ^ 32 + lo.
Proof.
  intros Hlo. rewrite <- Z.add_lor_land.
  assert (Hland : Z.land (hi * 2 ^ 32) lo = 0).
  { apply Z.bits_inj'. intros n Hn. rewrite Z.land_spec, Z.bits_0.
    rewrite <- Z.shiftl_mul_pow2 by lia. rewrite Z.shiftl_spec by lia.
    destruct (Z_lt_le_dec n 32) as [Hlt | Hge].
    - rewrite Z.testbit_neg_r by lia. reflexivity.
    - rewrite <- (Z.mod_small lo (2 ^ 32)) by lia.
      rewrite Z.mod_pow2_bits_high by lia. apply andb_false_r. }
  rewrite Hland. lia.
Qed.

Lemma CalculateStartTime_value (hi lo : Z) :
  TimingIntel.is_unsigned hi -> TimingIntel.is_unsigned lo ->
  TimingIntel._private_parcTiming_CalculateStartTime hi lo = hi * 2 ^ 32 + lo.
Proof.
  unfold TimingIntel.is_unsigned, TimingIntel._private_parcTiming_CalculateStartTime,
    TimingIntel.to_uint64.
  intros Hhi Hlo. rewrite Z.shiftl_mul_pow2 by lia.
  rewrite Z.mod_small by (change (2 ^ 64) with (2 ^ 32 * 2 ^ 32); nia).
  by apply lor_high_low.
Qed.

Lemma rdtsc_halves (tsc : Z) :
  TimingIntel.is_uint64 tsc ->
  TimingIntel.is_unsigned (TimingIntel.parcTimingIntel_rdtsc tsc).1 /\
  TimingIntel.is_unsigned (TimingIntel.parcTimingIntel_rdtsc tsc).2 /\
  (TimingIntel.parcTimingIntel_rdtsc tsc).1 * 2 ^ 32
    + (TimingIntel.parcTimingIntel_rdtsc tsc).2 = tsc.
Proof.
  unfold TimingIntel.is_uint64, TimingIntel.is_unsigned, TimingIntel.parcTimingIntel_rdtsc.
  intros Ht. cbn [fst snd].
  rewrite Z.shiftr_div_pow2, Z.land_ones by lia.
  change (2 ^ 64) with (2 ^ 32 * 2 ^ 32) in Ht.
  pose proof (Z.div_mod tsc (2 ^ 32) ltac:(lia)).
  pose proof (Z.mod_pos_bound tsc (2 ^ 32) ltac:(lia)).
  assert (0 <= tsc / 2 ^ 32 < 2 ^ 32).
  { split; [apply Z.div_pos; lia | apply Z.div_lt_upper_bound; lia]. }
  lia.
Qed.

Lemma CalculateTime_rdtsc (tsc : Z) :
  TimingIntel.is_uint64 tsc ->
  TimingIntel._private_parcTiming_CalculateStartTime
    (TimingIntel.parcTimingIntel_rdtsc tsc).1 (TimingIntel.parcTimingIntel_rdtsc tsc).2 = tsc /\
  TimingIntel._private_parcTiming_CalculateStopTime
    (TimingIntel.parcTimingIntel_rdtsc tsc).1 (TimingIntel.parcTimingIntel_rdtsc tsc).2 = tsc.
Proof.
  intros Ht. destruct (rdtsc_halves tsc Ht) as (Hhi & Hlo & Hsum).
  change TimingIntel._private_parcTiming_CalculateStopTime
    with TimingIntel._private_parcTiming_CalculateStartTime.
  rewrite CalculateStartTime_value by done. by split.
Qed.

(** X1. For 32-bit halves [hi] and [lo],
    [_private_parcTiming_CalculateStartTime] and [..StopTime] give the
    64-bit value hi * 2^32 + lo: nothing is lost, the halves can be read
    back from it. *)
Theorem CalculateTime_joins_halves (hi lo : Z) :
  TimingIntel.is_unsigned hi ->
  TimingIntel.is_unsigned lo ->
  TimingIntel._private_parcTiming_CalculateStartTime hi lo = hi * 2 ^ 32 + lo /\
  TimingIntel._private_parcTiming_CalculateStopTime hi lo = hi * 2 ^ 32 + lo /\
  TimingIntel.is_uint64 (TimingIntel._private_parcTiming_CalculateStartTime hi lo) /\
  TimingIntel._private_parcTiming_CalculateStartTime hi lo / 2 ^ 32 = hi /\
  TimingIntel._private_parcTiming_CalculateStartTime hi lo mod 2 ^ 32 = lo.
Proof.
  intros Hhi Hlo.
  change TimingIntel._private_parcTiming_CalculateStopTime
    with TimingIntel._private_parcTiming_CalculateStartTime.
  rewrite (CalculateStartTime_value hi lo Hhi Hlo).
  unfold TimingIntel.is_unsigned, TimingIntel.is_uint64 in *.
  change (2 ^ 64) with (2 ^ 32 * 2 ^ 32).
  repeat split; try nia.
  - symmetry. apply (Z.div_unique_pos _ _ hi lo); lia.
  - symmetry. apply (Z.mod_unique_pos _ _ hi lo); lia.
Qed.

Lemma CalculateTime_joins_halves_witness :
  TimingIntel.is_unsigned 5 /\ TimingIntel.is_unsigned (2 ^ 32 - 1) /\
  TimingIntel._private_parcTiming_CalculateStartTime 5 (2 ^ 32 - 1) = 5 * 2 ^ 32 + (2 ^ 32 - 1) /\
  TimingIntel._private_parcTiming_CalculateStopTime 5 (2 ^ 32 - 1) = 5 * 2 ^ 32 + (2 ^ 32 - 1) /\
  TimingIntel.is_uint64 (TimingIntel._private_parcTiming_CalculateStartTime 5 (2 ^ 32 - 1)) /\
  TimingIntel._private_parcTiming_CalculateStartTime 5 (2 ^ 32 - 1) / 2 ^ 32 = 5 /\
  TimingIntel._private_parcTiming_CalculateStartTime 5 (2 ^ 32 - 1) mod 2 ^ 32 = 2 ^ 32 - 1.
Proof.
  assert (H5 : TimingIntel.is_unsigned 5) by (unfold TimingIntel.is_unsigned; lia).
  assert (Hl : TimingIntel.is_unsigned (2 ^ 32 - 1)) by (unfold TimingIntel.is_unsigned; lia).
  split; [exact H5 |]. split; [exact Hl |].
  exact (CalculateTime_joins_halves 5 (2 ^ 32 - 1) H5 Hl).
Defined.

(** X2. If the counter shows [tsc0] at Start and has advanced by [elapsed]
    cycles (fewer than 2^64) at Stop, wrapping around or not,
    [_private_parcTiming_Delta] is [elapsed]. *)
Theorem Delta_is_elapsed (tsc0 elapsed : Z) :
  TimingIntel.is_uint64 tsc0 ->
  TimingIntel.is_uint64 elapsed ->
  TimingIntel.measured tsc0 (TimingIntel.to_uint64 (tsc0 + elapsed)) = elapsed.
Proof.
  intros H0 He.
  assert (H1 : TimingIntel.is_uint64 (TimingIntel.to_uint64 (tsc0 + elapsed))).
  { unfold TimingIntel.is_uint64, TimingIntel.to_uint64. apply Z.mod_pos_bound. lia. }
  unfold TimingIntel.measured.
  destruct (TimingIntel.parcTimingIntel_rdtsc tsc0) as [h0 l0] eqn:E0.
  destruct (TimingIntel.parcTimingIntel_rdtsc (TimingIntel.to_uint64 (tsc0 + elapsed)))
    as [h1 l1] eqn:E1.
  unfold TimingIntel._private_parcTiming_Delta.
  pose proof (CalculateTime_rdtsc tsc0 H0) as [Hs _]. rewrite E0 in Hs. cbn [fst snd] in Hs.
  pose proof (CalculateTime_rdtsc _ H1) as [_ Ht]. rewrite E1 in Ht. cbn [fst snd] in Ht.
  rewrite Hs, Ht. revert H0 He. clear.
  unfold TimingIntel.is_uint64, TimingIntel.to_uint64. intros H0 He.
  Z.to_euclidean_division_equations. lia.
Qed.

Lemma Delta_is_elapsed_witness :
  TimingIntel.is_uint64 (2 ^ 64 - 3) /\ TimingIntel.is_uint64 10 /\
  TimingIntel.measured (2 ^ 64 - 3) (TimingIntel.to_uint64 (2 ^ 64 - 3 + 10)) = 10.
Proof.
  assert (H0 : TimingIntel.is_uint64 (2 ^ 64 - 3)) by (unfold TimingIntel.is_uint64; lia).
  assert (He : TimingIntel.is_uint64 10) by (unfold TimingIntel.is_uint64; lia).
  split; [exact H0 |]. split; [exact He |].
  exact (Delta_is_elapsed (2 ^ 64 - 3) 10 H0 He).
Defined.


(** ** More on atomic scalars *)

#[local] Existing Instance Fallback.backend.
#[local] Existing Instance LockFree.backend.

(** [parcAtomicUint8_Compare] looks at the two values only. *)
Lemma Compare_values {T : Type} {B : Backend T} (a b : T) :
  parcAtomicUint8_Compare a b =
    parcAtomicUint8_Compare (B := LockFree.backend)
      (parcAtomicUint8_GetValue a) (parcAtomicUint8_GetValue b).
Proof. reflexivity. Qed.

(** X3. In either build [parcAtomicUint8_Equals] is reflexive, symmetric
    and transitive. *)
Theorem atomic_Equals_equivalence {T : Type} {B : Backend T} :
  (forall x : T, parcAtomicUint8_Equals x x = true) /\
  (forall x y : T, parcAtomicUint8_Equals x y = parcAtomicUint8_Equals y x) /\
  (forall x y z : T, parcAtomicUint8_Equals x y = true ->
                     parcAtomicUint8_Equals y z = true ->
                     parcAtomicUint8_Equals x z = true).
Proof.
  unfold parcAtomicUint8_Equals. split; [| split].
  - intros x. apply Z.eqb_refl.
  - intros x y. apply Z.eqb_sym.
  - intros x y z Hxy Hyz. apply Z.eqb_eq in Hxy, Hyz. apply Z.eqb_eq. congruence.
Qed.

(** X4. For scalars that hold uint8 values, [parcAtomicUint8_HashCode]
    agrees exactly with [parcAtomicUint8_Equals]: equal scalars have the
    same hash code, and scalars with the same hash code are equal. *)
Theorem atomic_Equals_iff_HashCode {T : Type} {B : Backend T} (x y : T) :
  is_uint8 (parcAtomicUint8_GetValue x) ->
  is_uint8 (parcAtomicUint8_GetValue y) ->
  (parcAtomicUint8_Equals x y = true <->
   parcAtomicUint8_HashCode x = parcAtomicUint8_HashCode y).
Proof.
  unfold parcAtomicUint8_Equals, parcAtomicUint8_HashCode, is_uint8.
  intros Hx Hy. rewrite Z.eqb_eq.
  rewrite !Z.mod_small by lia. done.
Qed.

Lemma atomic_Equals_iff_HashCode_witness :
  is_uint8 (parcAtomicUint8_GetValue (Fallback.parcAtomicUint8_Create 200)) /\
  is_uint8 (parcAtomicUint8_GetValue (Fallback.parcAtomicUint8_Create 17)) /\
  (parcAtomicUint8_Equals (Fallback.parcAtomicUint8_Create 200)
     (Fallback.parcAtomicUint8_Create 17) = true <->
   parcAtomicUint8_HashCode (Fallback.parcAtomicUint8_Create 200) =
     parcAtomicUint8_HashCode (Fallback.parcAtomicUint8_Create 17)).
Proof.
  assert (H1 : is_uint8 (parcAtomicUint8_GetValue (Fallback.parcAtomicUint8_Create 200)))
    by (cbv; split; [discriminate | reflexivity]).
  assert (H2 : is_uint8 (parcAtomicUint8_GetValue (Fallback.parcAtomicUint8_Create 17)))
    by (cbv; split; [discriminate | reflexivity]).
  split; [exact H1 |]. split; [exact H2 |].
  exact (atomic_Equals_iff_HashCode (Fallback.parcAtomicUint8_Create 200)
           (Fallback.parcAtomicUint8_Create 17) H1 H2).
Defined.

(** X5. What [parcAtomicUint8_Compare] returns for uint8 values a and b:
    the sign of a - b when the difference lies in [-128, 127]; -1 when
    a - b is 128 or more; 1 when a - b is less than -128.  So it follows
    the order of the values only while they are less than 128 apart (or
    exactly 128 apart with the first the smaller). *)
Theorem Compare_sign {T : Type} {B : Backend T} (a b : T) :
  is_uint8 (parcAtomicUint8_GetValue a) ->
  is_uint8 (parcAtomicUint8_GetValue b) ->
  (-128 <= parcAtomicUint8_GetValue a - parcAtomicUint8_GetValue b <= 127 ->
   parcAtomicUint8_Compare a b =
     Z.sgn (parcAtomicUint8_GetValue a - parcAtomicUint8_GetValue b)) /\
  (128 <= parcAtomicUint8_GetValue a - parcAtomicUint8_GetValue b ->
   parcAtomicUint8_Compare a b = -1) /\
  (parcAtomicUint8_GetValue a - parcAtomicUint8_GetValue b < -128 ->
   parcAtomicUint8_Compare a b = 1).
Proof.
  intros Ha Hb. rewrite Compare_values, Compare_LockFree, Z.gtb_ltb.
  set (va := parcAtomicUint8_GetValue a) in *.
  set (vb := parcAtomicUint8_GetValue b) in *.
  split; [| split].
  - intros Hd. rewrite (to_int8_small (va - vb) Hd).
    destruct (Z.ltb_spec (va - vb) 0), (Z.ltb_spec 0 (va - vb)); lia.
  - intros Hd. assert (Hw : to_int8 (va - vb) = va - vb - 256) by (clear - Ha Hb Hd; euclid).
    rewrite Hw. destruct (Z.ltb_spec (va - vb - 256) 0); [done |].
    unfold is_uint8 in *. lia.
  - intros Hd. assert (Hw : to_int8 (va - vb) = va - vb + 256) by (clear - Ha Hb Hd; euclid).
    rewrite Hw. unfold is_uint8 in *.
    destruct (Z.ltb_spec (va - vb + 256) 0), (Z.ltb_spec 0 (va - vb + 256)); lia.
Qed.

Lemma Compare_sign_witness :
  is_uint8 (parcAtomicUint8_GetValue (T := LockFree.PARCAtomicUint8) 200) /\
  is_uint8 (parcAtomicUint8_GetValue (T := LockFree.PARCAtomicUint8) 100) /\
  parcAtomicUint8_Compare (B := LockFree.backend) 200 100 = Z.sgn (200 - 100).
Proof.
  assert (H1 : is_uint8 (parcAtomicUint8_GetValue (T := LockFree.PARCAtomicUint8) 200))
    by (cbv; split; [discriminate | reflexivity]).
  assert (H2 : is_uint8 (parcAtomicUint8_GetValue (T := LockFree.PARCAtomicUint8) 100))
    by (cbv; split; [discriminate | reflexivity]).
  split; [exact H1 |]. split; [exact H2 |].
  destruct (Compare_sign (B := LockFree.backend) 200 100 H1 H2) as [Hs _].
  apply Hs. change (-128 <= 200 - 100 <= 127). lia.
Defined.

(** X6. For scalars that hold uint8 values, [parcAtomicUint8_Compare]
    returns -1, 0 or 1, and 0 exactly when [parcAtomicUint8_Equals] is
    true. *)
Theorem Compare_zero_iff_Equals {T : Type} {B : Backend T} (a b : T) :
  is_uint8 (parcAtomicUint8_GetValue a) ->
  is_uint8 (parcAtomicUint8_GetValue b) ->
  (parcAtomicUint8_Compare a b = -1 \/ parcAtomicUint8_Compare a b = 0 \/
   parcAtomicUint8_Compare a b = 1) /\
  (parcAtomicUint8_Compare a b = 0 <-> parcAtomicUint8_Equals a b = true).
Proof.
  intros Ha Hb. rewrite Compare_values. split; [apply Compare_range |].
  rewrite (Compare_zero_iff _ _ Ha Hb). unfold parcAtomicUint8_Equals.
  by rewrite Z.eqb_eq.
Qed.

Lemma Compare_zero_iff_Equals_witness :
  is_uint8 (parcAtomicUint8_GetValue (T := LockFree.PARCAtomicUint8) 128) /\
  is_uint8 (parcAtomicUint8_GetValue (T := LockFree.PARCAtomicUint8) 0) /\
  (parcAtomicUint8_Compare (B := LockFree.backend) 128 0 = -1 \/
   parcAtomicUint8_Compare (B := LockFree.backend) 128 0 = 0 \/
   parcAtomicUint8_Compare (B := LockFree.backend) 128 0 = 1) /\
  (parcAtomicUint8_Compare (B := LockFree.backend) 128 0 = 0 <->
   parcAtomicUint8_Equals (B := LockFree.backend) 128 0 = true).
Proof.
  assert (H1 : is_uint8 (parcAtomicUint8_GetValue (T := LockFree.PARCAtomicUint8) 128))
    by (cbv; split; [discriminate | reflexivity]).
  assert (H2 : is_uint8 (parcAtomicUint8_GetValue (T := LockFree.PARCAtomicUint8) 0))
    by (cbv; split; [discriminate | reflexivity]).
  split; [exact H1 |]. split; [exact H2 |].
  exact (Compare_zero_iff_Equals (B := LockFree.backend) 128 0 H1 H2).
Defined.

(** X7. For uint8 values, swapping the arguments of
    [parcAtomicUint8_Compare] negates the result exactly when the two
    values are not 128 apart. *)
Theorem Compare_antisymmetric_iff {T : Type} {B : Backend T} (a b : T) :
  is_uint8 (parcAtomicUint8_GetValue a) ->
  is_uint8 (parcAtomicUint8_GetValue b) ->
  (parcAtomicUint8_Compare a b = - parcAtomicUint8_Compare b a <->
   parcAtomicUint8_GetValue a - parcAtomicUint8_GetValue b <> 128 /\
   parcAtomicUint8_GetValue b - parcAtomicUint8_GetValue a <> 128).
Proof.
  intros Ha Hb. rewrite (Compare_values a b), (Compare_values b a).
  set (va := parcAtomicUint8_GetValue a) in *.
  set (vb := parcAtomicUint8_GetValue b) in *.
  split.
  - intros Hanti. rewrite !Compare_LockFree in Hanti.
    split; intros Hd.
    + assert (E1 : to_int8 (va - vb) = -128) by (clear - Hd; euclid).
      assert (E2 : to_int8 (vb - va) = -128) by (clear - Hd; euclid).
      rewrite E1, E2 in Hanti. discriminate Hanti.
    + assert (E1 : to_int8 (va - vb) = -128) by (clear - Hd; euclid).
      assert (E2 : to_int8 (vb - va) = -128) by (clear - Hd; euclid).
      rewrite E1, E2 in Hanti. discriminate Hanti.
  - intros [H1 H2]. by apply Compare_antisymmetric_unless_128.
Qed.

Lemma Compare_antisymmetric_iff_witness :
  is_uint8 (parcAtomicUint8_GetValue (T := LockFree.PARCAtomicUint8) 3) /\
  is_uint8 (parcAtomicUint8_GetValue (T := LockFree.PARCAtomicUint8) 131) /\
  (parcAtomicUint8_Compare (B := LockFree.backend) 3 131 =
     - parcAtomicUint8_Compare (B := LockFree.backend) 131 3 <->
   3 - 131 <> 128 /\ 131 - 3 <> 128).
Proof.
  assert (H1 : is_uint8 (parcAtomicUint8_GetValue (T := LockFree.PARCAtomicUint8) 3))
    by (cbv; split; [discriminate | reflexivity]).
  assert (H2 : is_uint8 (parcAtomicUint8_GetValue (T := LockFree.PARCAtomicUint8) 131))
    by (cbv; split; [discriminate | reflexivity]).
  split; [exact H1 |]. split; [exact H2 |].
  exact (Compare_antisymmetric_iff (B := LockFree.backend) 3 131 H1 H2).
Defined.

Lemma uint8_add_sub (v d : Z) : is_uint8 v -> to_uint8 (to_uint8 (v + d) - d) = v.
Proof. euclid. Qed.

Lemma uint8_sub_add (v d : Z) : is_uint8 v -> to_uint8 (to_uint8 (v - d) + d) = v.
Proof. euclid. Qed.

Lemma uint8_add_add (v d1 d2 : Z) :
  to_uint8 (to_uint8 (v + d1) + d2) = to_uint8 (v + to_uint8 (d1 + d2)).
Proof. euclid. Qed.

Lemma Fallback_idle_eta (f : Fallback.PARCAtomicUint8) :
  Fallback.idle f ->
  f = {| Fallback.value := Fallback.value f; Fallback.mutex := Fallback.Unlocked |}.
Proof. destruct f as [v mu]. unfold Fallback.idle. simpl. by intros ->. Qed.

(** X8. Adding d to a scalar that holds a uint8 value and then subtracting
    d (or the other way round) returns the original value and leaves the
    scalar as it was, whatever wrap-around happened in between; in both
    builds. *)
Theorem add_then_subtract (v d : Z) (f : Fallback.PARCAtomicUint8) :
  is_uint8 v ->
  Fallback.idle f ->
  Fallback.value f = v ->
  LockFree.parcAtomicUint8_SubtractImpl (LockFree.parcAtomicUint8_AddImpl v d).2 d = (v, v) /\
  LockFree.parcAtomicUint8_AddImpl (LockFree.parcAtomicUint8_SubtractImpl v d).2 d = (v, v) /\
  (Fallback.parcAtomicUint8_AddImpl d f ≫=
     fun r => Fallback.parcAtomicUint8_SubtractImpl d r.2) = Some (v, f) /\
  (Fallback.parcAtomicUint8_SubtractImpl d f ≫=
     fun r => Fallback.parcAtomicUint8_AddImpl d r.2) = Some (v, f).
Proof.
  intros Hv Hidle Hf.
  unfold LockFree.parcAtomicUint8_SubtractImpl, LockFree.parcAtomicUint8_AddImpl,
    LockFree.__sync_sub_and_fetch, LockFree.__sync_add_and_fetch. cbn [fst snd].
  rewrite (uint8_add_sub v d Hv), (uint8_sub_add v d Hv).
  rewrite (Fallback_AddImpl_idle f d Hidle), (Fallback_SubtractImpl_idle f d Hidle).
  cbn [mbind option_bind snd].
  rewrite Fallback_SubtractImpl_idle, Fallback_AddImpl_idle by reflexivity.
  cbn [Fallback.value]. rewrite Hf, (uint8_add_sub v d Hv), (uint8_sub_add v d Hv).
  rewrite (Fallback_idle_eta f Hidle), Hf. done.
Qed.

Lemma add_then_subtract_witness :
  is_uint8 250 /\
  Fallback.idle (Fallback.parcAtomicUint8_Create 250) /\
  Fallback.value (Fallback.parcAtomicUint8_Create 250) = 250 /\
  LockFree.parcAtomicUint8_SubtractImpl (LockFree.parcAtomicUint8_AddImpl 250 10).2 10
    = (250, 250) /\
  LockFree.parcAtomicUint8_AddImpl (LockFree.parcAtomicUint8_SubtractImpl 250 10).2 10
    = (250, 250) /\
  (Fallback.parcAtomicUint8_AddImpl 10 (Fallback.parcAtomicUint8_Create 250) ≫=
     fun r => Fallback.parcAtomicUint8_SubtractImpl 10 r.2)
    = Some (250, Fallback.parcAtomicUint8_Create 250) /\
  (Fallback.parcAtomicUint8_SubtractImpl 10 (Fallback.parcAtomicUint8_Create 250) ≫=
     fun r => Fallback.parcAtomicUint8_AddImpl 10 r.2)
    = Some (250, Fallback.parcAtomicUint8_Create 250).
Proof.
  assert (H : is_uint8 250) by (unfold is_uint8; lia).
  split; [exact H |]. split; [reflexivity |]. split; [reflexivity |].
  exact (add_then_subtract 250 10 (Fallback.parcAtomicUint8_Create 250) H eq_refl eq_refl).
Defined.

(** X9. Two additions in a row leave the scalar where one addition of the
    sum of the two addends, reduced to a uint8, leaves it, and return what
    that addition returns; in both builds. *)
Theorem add_twice (v d1 d2 : Z) (f : Fallback.PARCAtomicUint8) :
  Fallback.idle f ->
  LockFree.parcAtomicUint8_AddImpl (LockFree.parcAtomicUint8_AddImpl v d1).2 d2
    = LockFree.parcAtomicUint8_AddImpl v (to_uint8 (d1 + d2)) /\
  (Fallback.parcAtomicUint8_AddImpl d1 f ≫=
     fun r => Fallback.parcAtomicUint8_AddImpl d2 r.2)
    = Fallback.parcAtomicUint8_AddImpl (to_uint8 (d1 + d2)) f.
Proof.
  intros Hidle.
  unfold LockFree.parcAtomicUint8_AddImpl, LockFree.__sync_add_and_fetch. cbn [fst snd].
  rewrite (uint8_add_add v d1 d2).
  rewrite !(Fallback_AddImpl_idle f _ Hidle). cbn [mbind option_bind snd].
  rewrite Fallback_AddImpl_idle by reflexivity. cbn [Fallback.value].
  by rewrite uint8_add_add.
Qed.

Lemma add_twice_witness :
  Fallback.idle (Fallback.parcAtomicUint8_Create 100) /\
  LockFree.parcAtomicUint8_AddImpl (LockFree.parcAtomicUint8_AddImpl 100 200).2 100
    = LockFree.parcAtomicUint8_AddImpl 100 (to_uint8 (200 + 100)) /\
  (Fallback.parcAtomicUint8_AddImpl 200 (Fallback.parcAtomicUint8_Create 100) ≫=
     fun r => Fallback.parcAtomicUint8_AddImpl 100 r.2)
    = Fallback.parcAtomicUint8_AddImpl (to_uint8 (200 + 100))
        (Fallback.parcAtomicUint8_Create 100).
Proof.
  split; [reflexivity |].
  exact (add_twice 100 200 100 (Fallback.parcAtomicUint8_Create 100) eq_refl).
Defined.

(** X10. Every operation keeps a scalar within the uint8 range: from a
    scalar that holds a uint8 value, get, add and subtract (with any
    operand) and compare-and-swap (with a uint8 new value) return a uint8
    value, if they return a value, and leave a uint8 value in the scalar;
    in both builds. *)
Theorem operations_keep_uint8 (op : operation) :
  match op with
  | OpCompareAndSwap _ newValue => is_uint8 newValue
  | _ => True
  end ->
  (forall (l l' : LockFree.PARCAtomicUint8) (r : answer),
     is_uint8 l ->
     perform (B := LockFree.backend) op l = Some (r, l') ->
     is_uint8 l' /\ match r with AValue v => is_uint8 v | ABool _ => True end) /\
  (forall (f f' : Fallback.PARCAtomicUint8) (r : answer),
     is_uint8 (Fallback.value f) ->
     perform (B := Fallback.backend) op f = Some (r, f') ->
     is_uint8 (Fallback.value f') /\
     match r with AValue v => is_uint8 v | ABool _ => True end).
Proof.
  intros Hop. split.
  - intros l l' r Hl Hrun.
    destruct op as [| d | d | e n]; cbn in Hrun.
    + simplify_eq. split; exact Hl.
    + simplify_eq. split; apply to_uint8_range.
    + simplify_eq. split; apply to_uint8_range.
    + unfold LockFree.parcAtomicUint8_CompareAndSwapImpl,
        LockFree.__sync_bool_compare_and_swap in Hrun.
      destruct (l =? e); cbn in Hrun; simplify_eq; split; done.
  - intros f f' r Hf Hrun.
    destruct (Fallback.mutex f) eqn:Hmu.
    2:{ destruct f as [v mu]. simpl in Hmu. subst mu.
        destruct op; cbn in Hrun; [simplify_eq; split; exact Hf | discriminate ..]. }
    destruct op as [| d | d | e n]; cbn [perform] in Hrun.
    + simplify_eq. split; exact Hf.
    + cbn in Hrun. rewrite (Fallback_AddImpl_idle f d Hmu) in Hrun.
      cbn in Hrun. simplify_eq. split; apply to_uint8_range.
    + cbn in Hrun. rewrite (Fallback_SubtractImpl_idle f d Hmu) in Hrun.
      cbn in Hrun. simplify_eq. split; apply to_uint8_range.
    + cbn in Hrun. rewrite (Fallback_CompareAndSwapImpl_idle f e n Hmu) in Hrun.
      destruct (Fallback.value f =? e); cbn in Hrun; simplify_eq; split; done.
Qed.

Lemma operations_keep_uint8_witness :
  is_uint8 9 /\
  (forall (l l' : LockFree.PARCAtomicUint8) (r : answer),
     is_uint8 l ->
     perform (B := LockFree.backend) (OpCompareAndSwap 7 9) l = Some (r, l') ->
     is_uint8 l' /\ match r with AValue v => is_uint8 v | ABool _ => True end) /\
  (forall (f f' : Fallback.PARCAtomicUint8) (r : answer),
     is_uint8 (Fallback.value f) ->
     perform (B := Fallback.backend) (OpCompareAndSwap 7 9) f = Some (r, f') ->
     is_uint8 (Fallback.value f') /\
     match r with AValue v => is_uint8 v | ABool _ => True end).
Proof.
  assert (H : is_uint8 9) by (unfold is_uint8; lia).
  split; [exact H |]. exact (operations_keep_uint8 (OpCompareAndSwap 7 9) H).
Defined.

(** X11. A copy made by [parcAtomicUint8_Copy] is equal to the original,
    has the same hash code and compares 0 with it; in the mutex-guarded
    build the copy's mutex is free even when the original's is held. *)
Theorem Copy_equals_original :
  (forall l : LockFree.PARCAtomicUint8,
     parcAtomicUint8_Equals (parcAtomicUint8_Copy l) l = true /\
     parcAtomicUint8_HashCode (parcAtomicUint8_Copy l) = parcAtomicUint8_HashCode l /\
     parcAtomicUint8_Compare (parcAtomicUint8_Copy l) l = 0) /\
  (forall f : Fallback.PARCAtomicUint8,
     parcAtomicUint8_Equals (parcAtomicUint8_Copy f) f = true /\
     parcAtomicUint8_HashCode (parcAtomicUint8_Copy f) = parcAtomicUint8_HashCode f /\
     parcAtomicUint8_Compare (parcAtomicUint8_Copy f) f = 0 /\
     Fallback.idle (parcAtomicUint8_Copy f)).
Proof.
  split.
  - intros l. unfold parcAtomicUint8_Equals, parcAtomicUint8_HashCode,
      parcAtomicUint8_Compare, parcAtomicUint8_Copy. cbn.
    rewrite Z.eqb_refl, Z.sub_diag. done.
  - intros f. unfold parcAtomicUint8_Equals, parcAtomicUint8_HashCode,
      parcAtomicUint8_Compare, parcAtomicUint8_Copy. cbn.
    rewrite Z.eqb_refl, Z.sub_diag. done.
Qed.

(** ** More on key/value pairs *)

(** X12. If the objects' Equals is reflexive, symmetric and transitive,
    so is [parcKeyValue_Equals]. *)
Theorem parcKeyValue_Equals_equivalence
    {PARCObject : Type} `{EqDecision PARCObject}
    (parcObject_Equals : PARCObject -> PARCObject -> bool) :
  (forall x, parcObject_Equals x x = true) ->
  (forall x y, parcObject_Equals x y = parcObject_Equals y x) ->
  (forall x y z, parcObject_Equals x y = true -> parcObject_Equals y z = true ->
                 parcObject_Equals x z = true) ->
  (forall a, parcKeyValue_Equals parcObject_Equals a a = true) /\
  (forall a b, parcKeyValue_Equals parcObject_Equals a b =
               parcKeyValue_Equals parcObject_Equals b a) /\
  (forall a b c, parcKeyValue_Equals parcObject_Equals a b = true ->
                 parcKeyValue_Equals parcObject_Equals b c = true ->
                 parcKeyValue_Equals parcObject_Equals a c = true).
Proof.
  intros Hrefl Hsym Htrans. unfold parcKeyValue_Equals. split; [| split].
  - intros [k [v |]]; cbn; rewrite ?Hrefl; done.
  - intros [ka [va |]] [kb [vb |]]; cbn; rewrite (Hsym ka kb); try done.
    by rewrite (Hsym va vb).
  - intros [ka [va |]] [kb [vb |]] [kc [vc |]]; cbn;
      intros [Hk1 Hv1]%andb_true_iff [Hk2 Hv2]%andb_true_iff;
      try discriminate Hv1; try discriminate Hv2;
      apply andb_true_iff; (split; [by eapply Htrans |]);
      [by eapply Htrans | done].
Qed.

Lemma digit_Equals_refl (x : Z) : digit_Equals x x = true.
Proof. apply Z.eqb_refl. Qed.

Lemma digit_Equals_sym (x y : Z) : digit_Equals x y = digit_Equals y x.
Proof. apply Z.eqb_sym. Qed.

Lemma digit_Equals_trans (x y z : Z) :
  digit_Equals x y = true -> digit_Equals y z = true -> digit_Equals x z = true.
Proof. unfold digit_Equals. rewrite !Z.eqb_eq. congruence. Qed.

Lemma parcKeyValue_Equals_equivalence_witness :
  (forall x, digit_Equals x x = true) /\
  (forall x y, digit_Equals x y = digit_Equals y x) /\
  (forall x y z, digit_Equals x y = true -> digit_Equals y z = true ->
                 digit_Equals x z = true) /\
  (forall a, parcKeyValue_Equals digit_Equals a a = true) /\
  (forall a b, parcKeyValue_Equals digit_Equals a b = parcKeyValue_Equals digit_Equals b a) /\
  (forall a b c, parcKeyValue_Equals digit_Equals a b = true ->
                 parcKeyValue_Equals digit_Equals b c = true ->
                 parcKeyValue_Equals digit_Equals a c = true).
Proof.
  split; [exact digit_Equals_refl |]. split; [exact digit_Equals_sym |].
  split; [exact digit_Equals_trans |].
  exact (parcKeyValue_Equals_equivalence digit_Equals
           digit_Equals_refl digit_Equals_sym digit_Equals_trans).
Defined.

(** X13. [parcKeyValue_Equals] on two pairs of which exactly one has no
    value is false, whatever the keys are; on two pairs without values it
    is [parcKeyValue_EqualKeys]. *)
Theorem parcKeyValue_Equals_null_value
    {PARCObject : Type} `{EqDecision PARCObject}
    (parcObject_Equals : PARCObject -> PARCObject -> bool)
    (a b : parc_key_value PARCObject) :
  (value a = None -> value b <> None -> parcKeyValue_Equals parcObject_Equals a b = false) /\
  (value a <> None -> value b = None -> parcKeyValue_Equals parcObject_Equals a b = false) /\
  (value a = None -> value b = None ->
   parcKeyValue_Equals parcObject_Equals a b = parcKeyValue_EqualKeys parcObject_Equals a b).
Proof.
  unfold parcKeyValue_Equals, parcKeyValue_EqualKeys.
  destruct a as [ka [va |]], b as [kb [vb |]]; cbn; repeat split; intros;
    rewrite ?andb_false_r, ?andb_true_r; done.
Qed.

(** X14. If swapping the arguments negates the objects' Compare, it
    negates [parcKeyValue_Compare], for pointers that are NULL as well. *)
Theorem parcKeyValue_Compare_antisymmetric
    {PARCObject : Type} (parcObject_Compare : PARCObject -> PARCObject -> Z)
    (a b : option (parc_key_value PARCObject)) :
  (forall x y, parcObject_Compare x y = - parcObject_Compare y x) ->
  parcKeyValue_Compare parcObject_Compare a b = - parcKeyValue_Compare parcObject_Compare b a.
Proof.
  intros Hanti. destruct a as [a |], b as [b |]; cbn; [apply Hanti | done ..].
Qed.

(** Objects that are numbers, compared by their last digit. *)
Lemma digit_Compare_antisymmetric (x y : Z) :
  digit_Compare x y = - digit_Compare y x.
Proof. unfold digit_Compare. rewrite <- Z.sgn_opp. f_equal. lia. Qed.

Lemma parcKeyValue_Compare_antisymmetric_witness :
  (forall x y, digit_Compare x y = - digit_Compare y x) /\
  parcKeyValue_Compare digit_Compare (Some {| key := 13; value := None |}) None =
    - parcKeyValue_Compare digit_Compare None (Some {| key := 13; value := None |}).
Proof.
  split; [exact digit_Compare_antisymmetric |].
  exact (parcKeyValue_Compare_antisymmetric digit_Compare
           (Some {| key := 13; value := None |}) None digit_Compare_antisymmetric).
Defined.

(** X15. [parcKeyValue_HashCode] and [parcKeyValue_Compare] look at the
    keys only: under the hash/equals contract, and if equal objects
    compare 0, two pairs with equal keys have the same hash code and
    compare 0 whatever their values are, and pairs that are Equal have
    equal keys. *)
Theorem parcKeyValue_key_only
    {PARCObject : Type} `{EqDecision PARCObject}
    (parcObject_Equals : PARCObject -> PARCObject -> bool)
    (parcObject_Compare : PARCObject -> PARCObject -> Z)
    (parcObject_HashCode : PARCObject -> Z)
    (a b : parc_key_value PARCObject) :
  hash_equals_contract parcObject_Equals parcObject_HashCode ->
  (forall x y, parcObject_Equals x y = true -> parcObject_Compare x y = 0) ->
  (parcKeyValue_Equals parcObject_Equals a b = true ->
   parcKeyValue_EqualKeys parcObject_Equals a b = true) /\
  (parcKeyValue_EqualKeys parcObject_Equals a b = true ->
   parcKeyValue_HashCode parcObject_HashCode a = parcKeyValue_HashCode parcObject_HashCode b /\
   parcKeyValue_Compare parcObject_Compare (Some a) (Some b) = 0).
Proof.
  intros Hhash Hcmp. unfold parcKeyValue_Equals, parcKeyValue_EqualKeys,
    parcKeyValue_HashCode, parcKeyValue_Compare.
  split.
  - destruct (value a), (value b); rewrite andb_true_iff; tauto.
  - intros Hk. split; [by apply Hhash | by apply Hcmp].
Qed.

Lemma digit_Equals_Compare (x y : Z) : digit_Equals x y = true -> digit_Compare x y = 0.
Proof.
  unfold digit_Equals, digit_Compare. rewrite Z.eqb_eq. intros ->.
  by rewrite Z.sub_diag.
Qed.

Lemma parcKeyValue_key_only_witness :
  hash_equals_contract digit_Equals digit_HashCode /\
  (forall x y, digit_Equals x y = true -> digit_Compare x y = 0) /\
  (parcKeyValue_Equals digit_Equals
     {| key := 13; value := Some 4 |} {| key := 23; value := None |} = true ->
   parcKeyValue_EqualKeys digit_Equals
     {| key := 13; value := Some 4 |} {| key := 23; value := None |} = true) /\
  (parcKeyValue_EqualKeys digit_Equals
     {| key := 13; value := Some 4 |} {| key := 23; value := None |} = true ->
   parcKeyValue_HashCode digit_HashCode {| key := 13; value := Some 4 |} =
     parcKeyValue_HashCode digit_HashCode {| key := 23; value := None |} /\
   parcKeyValue_Compare digit_Compare
     (Some {| key := 13; value := Some 4 |}) (Some {| key := 23; value := None |}) = 0).
Proof.
  split; [exact digit_contract |]. split; [exact digit_Equals_Compare |].
  exact (parcKeyValue_key_only digit_Equals digit_Compare digit_HashCode
           {| key := 13; value := Some 4 |} {| key := 23; value := None |}
           digit_contract digit_Equals_Compare).
Defined.

(** ** More on identity files *)

Lemma code_inj (c1 c2 : ascii) : code c1 = code c2 -> c1 = c2.
Proof.
  unfold code. intros H. apply N2Z.inj in H.
  rewrite <- (ascii_N_embedding c1), <- (ascii_N_embedding c2). by rewrite H.
Qed.

Lemma contents_cons (c : ascii) (r : string) :
  contents (String c r) = if is_nul c then EmptyString else String c (contents r).
Proof. unfold contents. cbn. by destruct (is_nul c). Qed.

(** [strcmp] is 0 exactly on strings with the same characters. *)
Lemma strcmp_zero_iff (s t : string) : strcmp s t = 0 <-> contents s = contents t.
Proof.
  revert t. induction s as [| c1 r1 IH]; intros [| c2 r2].
  - done.
  - rewrite contents_cons. cbn [strcmp]. unfold is_nul.
    destruct (Z.eqb_spec (code c2) 0) as [H0 | Hn]; split; try done; lia.
  - rewrite contents_cons. cbn [strcmp]. unfold is_nul.
    destruct (Z.eqb_spec (code c1) 0) as [H0 | Hn]; split; try done; lia.
  - rewrite !contents_cons. cbn [strcmp].
    destruct (Z.eqb_spec (code c1) (code c2)) as [Heq | Hne].
    + apply code_inj in Heq. subst c2.
      destruct (is_nul c1); [done |]. rewrite IH. split; [by intros -> | by intros [= ->]].
    + unfold is_nul.
      destruct (Z.eqb_spec (code c1) 0) as [H1 | H1], (Z.eqb_spec (code c2) 0) as [H2 | H2];
        split; try done; try lia.
      intros [= -> _]. done.
Qed.

Lemma contents_idempotent (s : string) : contents (contents s) = contents s.
Proof.
  induction s as [| c r IH]; [done |]. rewrite contents_cons.
  destruct (is_nul c) eqn:Hc; [done |]. by rewrite contents_cons, Hc, IH.
Qed.

Lemma parcIdentityFile_Create_result (f p : string)
    (objs : gmap address (object parc_identity_file)) (rw n att : nat) :
  parcIdentityFile_Create f p
    {| objects := objs; raw := rw; available := S (S (S n)); attempts := att |}
  = (Some (fresh (dom objs)),
     {| objects := <[fresh (dom objs) :=
                       {| refcount := 1;
                          payload := {| fileName := Some (contents f);
                                        passWord := Some (contents p) |} |}]> objs;
        raw := S (S rw); available := n; attempts := S (S (S att)) |}).
Proof.
  unfold parcIdentityFile_Create, parcObject_CreateInstance, parcMemory_StringDuplicate,
    update_payload. cbn. rewrite !alter_insert_eq. reflexivity.
Qed.

(** X16. With room for three allocations [parcIdentityFile_Create] returns
    a new instance (an address that was not live), held once, whose file
    name and password read back as the characters of the two arguments;
    no other object changes, and three more allocations are outstanding. *)
Theorem parcIdentityFile_Create_succeeds (f p : string) (m : IdentityFile.memory) :
  (3 <= available m)%nat ->
  exists (a : address) (m' : IdentityFile.memory),
    parcIdentityFile_Create f p m = (Some a, m') /\
    objects m !! a = None /\
    objects m' = <[a := {| refcount := 1;
                           payload := {| fileName := Some (contents f);
                                         passWord := Some (contents p) |} |}]> (objects m) /\
    parcIdentityFile_GetFileName m' a = Some (Some (contents f)) /\
    parcIdentityFile_GetPassWord m' a = Some (Some (contents p)) /\
    parcMemory_Outstanding m' = (parcMemory_Outstanding m + 3)%nat.
Proof.
  intros Hav. destruct m as [objs rw av att]. cbn [available] in Hav.
  destruct av as [| [| [| n]]]; try lia.
  rewrite parcIdentityFile_Create_result.
  assert (Hfresh : objs !! fresh (dom objs) = None) by (apply not_elem_of_dom, is_fresh).
  eexists _, _. split; [reflexivity |]. split; [exact Hfresh |]. split; [reflexivity |].
  unfold parcIdentityFile_GetFileName, parcIdentityFile_GetPassWord, read_payload,
    parcMemory_Outstanding. cbn [objects raw].
  rewrite lookup_insert_eq, map_size_insert_None by done. cbn. repeat split. lia.
Qed.

Lemma parcIdentityFile_Create_succeeds_witness :
  (3 <= available (@room parc_identity_file 3))%nat /\
  exists (a : address) (m' : IdentityFile.memory),
    parcIdentityFile_Create "identity.p12" "secret" (room 3) = (Some a, m') /\
    objects (@room parc_identity_file 3) !! a = None /\
    objects m' = <[a := {| refcount := 1;
                           payload := {| fileName := Some (contents "identity.p12");
                                         passWord := Some (contents "secret") |} |}]>
                   (objects (room 3)) /\
    parcIdentityFile_GetFileName m' a = Some (Some (contents "identity.p12")) /\
    parcIdentityFile_GetPassWord m' a = Some (Some (contents "secret")) /\
    parcMemory_Outstanding m' = (parcMemory_Outstanding (@room parc_identity_file 3) + 3)%nat.
Proof.
  assert (H : (3 <= available (@room parc_identity_file 3))%nat) by (simpl; lia).
  split; [exact H |].
  exact (parcIdentityFile_Create_succeeds "identity.p12" "secret" (room 3) H).
Defined.

(** X17. On two different live instances whose strings are set,
    [parcIdentityFile_Equals] is true exactly when the two file names have
    the same characters and the two passwords have the same characters. *)
Theorem parcIdentityFile_Equals_by_value (m : IdentityFile.memory) (a b : address)
    (fa fb pa pb : string) :
  a <> b ->
  read_payload m a = Some {| fileName := Some fa; passWord := Some pa |} ->
  read_payload m b = Some {| fileName := Some fb; passWord := Some pb |} ->
  parcIdentityFile_Equals m (Some a) (Some b) =
    Some (bool_decide (contents fa = contents fb /\ contents pa = contents pb)).
Proof.
  intros Hne Ha Hb. rewrite (parcIdentityFile_Equals_fields m a b fa fb pa pb Hne Ha Hb).
  f_equal. apply eq_true_iff_eq.
  rewrite andb_true_iff, !Z.eqb_eq, bool_decide_eq_true, !strcmp_zero_iff. done.
Qed.

Lemma parcIdentityFile_Equals_by_value_witness :
  1%positive <> 2%positive /\
  read_payload two_identities 1%positive =
    Some {| fileName := Some "id.p12"; passWord := Some "one" |} /\
  read_payload two_identities 2%positive =
    Some {| fileName := Some "id.p12"; passWord := Some "two" |} /\
  parcIdentityFile_Equals two_identities (Some 1%positive) (Some 2%positive) =
    Some (bool_decide (contents "id.p12" = contents "id.p12" /\
                       contents "one" = contents "two")).
Proof.
  assert (Hne : 1%positive <> 2%positive) by discriminate.
  split; [exact Hne |]. split; [reflexivity |]. split; [reflexivity |].
  exact (parcIdentityFile_Equals_by_value two_identities 1%positive 2%positive
           "id.p12" "id.p12" "one" "two" Hne eq_refl eq_refl).
Defined.

(** What a true answer of [parcIdentityFile_Equals] on two different
    pointers says about the instances. *)
Lemma parcIdentityFile_Equals_true_inv (m : IdentityFile.memory) (x y : option address) :
  x <> y ->
  parcIdentityFile_Equals m x y = Some true ->
  exists a b fa fb pa pb,
    x = Some a /\ y = Some b /\
    read_payload m a = Some {| fileName := Some fa; passWord := Some pa |} /\
    read_payload m b = Some {| fileName := Some fb; passWord := Some pb |} /\
    contents fa = contents fb /\ contents pa = contents pb.
Proof.
  intros Hne. unfold parcIdentityFile_Equals.
  rewrite bool_decide_eq_false_2 by done.
  destruct x as [a |], y as [b |]; try discriminate.
  unfold parcIdentityFile_GetFileName, parcIdentityFile_GetPassWord.
  destruct (read_payload m a) as [[[fa |] [pa |]] |] eqn:Ha; cbn; try discriminate;
    destruct (read_payload m b) as [[[fb |] [pb |]] |] eqn:Hb; cbn; try discriminate.
  - destruct (Z.eqb_spec (strcmp fa fb) 0) as [Hf | Hf]; cbn; [| discriminate].
    destruct (Z.eqb_spec (strcmp pa pb) 0) as [Hp | Hp]; cbn; [| discriminate].
    intros _. exists a, b, fa, fb, pa, pb.
    apply strcmp_zero_iff in Hf, Hp. done.
  - destruct (strcmp fa fb =? 0); cbn; discriminate.
  - destruct (strcmp fa fb =? 0); cbn; discriminate.
  - destruct (strcmp fa fb =? 0); cbn; discriminate.
Qed.

(** X18. [parcIdentityFile_Equals] is transitive: if it is true on (x, y)
    and on (y, z) it is true on (x, z), for all pointers. *)
Theorem parcIdentityFile_Equals_transitive (m : IdentityFile.memory)
    (x y z : option address) :
  parcIdentityFile_Equals m x y = Some true ->
  parcIdentityFile_Equals m y z = Some true ->
  parcIdentityFile_Equals m x z = Some true.
Proof.
  intros Hxy Hyz.
  destruct (decide (x = z)) as [-> | Hxz]; [apply parcIdentityFile_Equals_same |].
  destruct (decide (x = y)) as [-> | Hne1]; [done |].
  destruct (decide (y = z)) as [-> | Hne2]; [done |].
  destruct (parcIdentityFile_Equals_true_inv m x y Hne1 Hxy)
    as (a & b & fa & fb & pa & pb & -> & -> & Ha & Hb & Hf1 & Hp1).
  destruct (parcIdentityFile_Equals_true_inv m (Some b) z Hne2 Hyz)
    as (b' & c & fb' & fc & pb' & pc & [= <-] & -> & Hb' & Hc & Hf2 & Hp2).
  rewrite Hb in Hb'. injection Hb' as <- <-.
  rewrite (parcIdentityFile_Equals_fields m a c fa fc pa pc) by (done || congruence).
  f_equal. apply andb_true_iff. rewrite !Z.eqb_eq, !strcmp_zero_iff. split; congruence.
Qed.

Lemma parcIdentityFile_Equals_transitive_witness :
  parcIdentityFile_Equals three_identities (Some 1%positive) (Some 2%positive) = Some true /\
  parcIdentityFile_Equals three_identities (Some 2%positive) (Some 3%positive) = Some true /\
  parcIdentityFile_Equals three_identities (Some 1%positive) (Some 3%positive) = Some true.
Proof.
  assert (H12 : parcIdentityFile_Equals three_identities (Some 1%positive) (Some 2%positive)
                = Some true) by reflexivity.
  assert (H23 : parcIdentityFile_Equals three_identities (Some 2%positive) (Some 3%positive)
                = Some true) by reflexivity.
  split; [exact H12 |]. split; [exact H23 |].
  exact (parcIdentityFile_Equals_transitive three_identities
           (Some 1%positive) (Some 2%positive) (Some 3%positive) H12 H23).
Defined.

(** X19. Two instances created one after the other are different
    pointers, and [parcIdentityFile_Equals] finds them equal exactly when
    they were created from file names with the same characters and
    passwords with the same characters. *)
Theorem parcIdentityFile_Create_twice_Equals (f1 p1 f2 p2 : string) (m : IdentityFile.memory) :
  (6 <= available m)%nat ->
  exists (a b : address) (m1 m2 : IdentityFile.memory),
    parcIdentityFile_Create f1 p1 m = (Some a, m1) /\
    parcIdentityFile_Create f2 p2 m1 = (Some b, m2) /\
    a <> b /\
    parcIdentityFile_Equals m2 (Some a) (Some b) =
      Some (bool_decide (contents f1 = contents f2 /\ contents p1 = contents p2)).
Proof.
  intros Hav. destruct m as [objs rw av att]. cbn [available] in Hav.
  destruct av as [| [| [| [| [| [| n]]]]]]; try lia.
  set (a := fresh (dom objs)).
  set (oa := {| refcount := 1;
                payload := {| fileName := Some (contents f1);
                              passWord := Some (contents p1) |} |}).
  set (b := fresh (dom (<[a := oa]> objs))).
  assert (Hab : a <> b).
  { intros Heq. pose proof (is_fresh (dom (<[a := oa]> objs))) as Hfresh.
    fold b in Hfresh. rewrite <- Heq in Hfresh. apply Hfresh.
    rewrite dom_insert. set_solver. }
  exists a, b. eexists _, _.
  split; [apply parcIdentityFile_Create_result |].
  split; [apply parcIdentityFile_Create_result |].
  split; [exact Hab |].
  rewrite (parcIdentityFile_Equals_fields _ a b (contents f1) (contents f2)
             (contents p1) (contents p2) Hab).
  - f_equal. apply eq_true_iff_eq.
    rewrite andb_true_iff, !Z.eqb_eq, bool_decide_eq_true, !strcmp_zero_iff,
      !contents_idempotent. done.
  - unfold read_payload. cbn [objects]. fold a. fold oa. fold b.
    rewrite lookup_insert_ne by congruence. by rewrite lookup_insert_eq.
  - unfold read_payload. cbn [objects]. fold a. fold oa. fold b.
    by rewrite lookup_insert_eq.
Qed.

Lemma parcIdentityFile_Create_twice_Equals_witness :
  (6 <= available (@room parc_identity_file 6))%nat /\
  exists (a b : address) (m1 m2 : IdentityFile.memory),
    parcIdentityFile_Create "id.p12" "secret" (room 6) = (Some a, m1) /\
    parcIdentityFile_Create "id.p12" "secret" m1 = (Some b, m2) /\
    a <> b /\
    parcIdentityFile_Equals m2 (Some a) (Some b) =
      Some (bool_decide (contents "id.p12" = contents "id.p12" /\
                         contents "secret" = contents "secret")).
Proof.
  assert (H : (6 <= available (@room parc_identity_file 6))%nat) by (simpl; lia).
  split; [exact H |].
  exact (parcIdentityFile_Create_twice_Equals "id.p12" "secret" "id.p12" "secret" (room 6) H).
Defined.

(** ** More on loggers *)

Section LogFacts.
Context {PARCLogLevel PARCLogReporter : Type}.
Variable PARCLogLevel_Off : PARCLogLevel.
Variable parcLogReporter_Acquire : PARCLogReporter -> PARCLogReporter.

Local Abbreviation PARCLog := (Log.PARCLog PARCLogLevel PARCLogReporter).
Local Abbreviation parcLog_Create :=
  (Log.parcLog_Create PARCLogLevel PARCLogLevel_Off PARCLogReporter parcLogReporter_Acquire).
Local Abbreviation parcLog_GetLevel := (Log.parcLog_GetLevel PARCLogLevel PARCLogReporter).
Local Abbreviation parcLog_SetLevel := (Log.parcLog_SetLevel PARCLogLevel PARCLogReporter).

Lemma parcLog_Create_result (h a p : option string) (r : PARCLogReporter)
    (objs : gmap address (object PARCLog)) (rw n att : nat) :
  parcLog_Create h a p r
    {| objects := objs; raw := rw; available := S (S (S (S n))); attempts := att |}
  = Returned
      (Some (fresh (dom objs)),
       {| objects :=
            <[fresh (dom objs) :=
                {| refcount := 1;
                   payload := {| Log.hostName := Some (contents (default Log._nilvalue h));
                                 Log.applicationName :=
                                   Some (contents (default Log._nilvalue a));
                                 Log.processId := Some (contents (default Log._nilvalue p));
                                 Log.messageId := 0;
                                 Log.level := PARCLogLevel_Off;
                                 Log.reporter := Some (parcLogReporter_Acquire r) |} |}]> objs;
          raw := S (S (S rw)); available := n; attempts := S (S (S (S att))) |}).
Proof.
  unfold Log.parcLog_Create, parcObject_CreateInstance, parcMemory_StringDuplicate,
    update_payload. cbn. rewrite !alter_insert_eq. reflexivity.
Qed.

(** X20. With room for four allocations [parcLog_Create] returns a new
    logger, held once, whose host name, application name and process id
    are the characters of the arguments, "-" standing in for each argument
    that is NULL, whose message id is 0, whose level is Off and whose
    reporter is the acquired one; four more allocations are outstanding. *)
Theorem parcLog_Create_succeeds (h a p : option string) (r : PARCLogReporter)
    (m : Memory.memory PARCLog) :
  (4 <= available m)%nat ->
  exists (log : address) (m' : Memory.memory PARCLog),
    parcLog_Create h a p r m = Returned (Some log, m') /\
    objects m !! log = None /\
    objects m' !! log =
      Some {| refcount := 1;
              payload := {| Log.hostName := Some (contents (default "-" h));
                            Log.applicationName := Some (contents (default "-" a));
                            Log.processId := Some (contents (default "-" p));
                            Log.messageId := 0;
                            Log.level := PARCLogLevel_Off;
                            Log.reporter := Some (parcLogReporter_Acquire r) |} |} /\
    parcLog_GetLevel m' log = Some PARCLogLevel_Off /\
    parcMemory_Outstanding m' = (parcMemory_Outstanding m + 4)%nat.
Proof.
  intros Hav. destruct m as [objs rw av att]. cbn [available] in Hav.
  destruct av as [| [| [| [| n]]]]; try lia.
  rewrite parcLog_Create_result.
  assert (Hfresh : objs !! fresh (dom objs) = None) by (apply not_elem_of_dom, is_fresh).
  eexists _, _. split; [reflexivity |]. split; [exact Hfresh |].
  unfold Log.parcLog_GetLevel, read_payload, parcMemory_Outstanding. cbn [objects raw].
  rewrite lookup_insert_eq, map_size_insert_None by done.
  split; [reflexivity |]. split; [reflexivity |]. lia.
Qed.

Lemma set_level_twice (l : PARCLog) (new : PARCLogLevel) :
  Log.set_level _ _ (Log.level _ _ l) (Log.set_level _ _ new l) = l.
Proof. by destruct l. Qed.

(** X21. On a live logger [parcLog_SetLevel] returns the level the logger
    had, after it [parcLog_GetLevel] returns the new level, the logger's
    other fields and all other objects are as before, and setting the
    returned level again puts the store back exactly as it was. *)
Theorem parcLog_SetLevel_GetLevel (m : Memory.memory PARCLog) (log : address)
    (o : object PARCLog) (new : PARCLogLevel) :
  objects m !! log = Some o ->
  exists m' : Memory.memory PARCLog,
    parcLog_SetLevel log new m = Some (Log.level _ _ (payload o), m') /\
    parcLog_GetLevel m' log = Some new /\
    objects m' = <[log := {| refcount := refcount o;
                             payload := Log.set_level _ _ new (payload o) |}]> (objects m) /\
    parcLog_SetLevel log (Log.level _ _ (payload o)) m' = Some (new, m).
Proof.
  intros Hlog. unfold Log.parcLog_SetLevel, Log.parcLog_GetLevel, read_payload.
  rewrite Hlog. cbn [fmap option_fmap option_map mbind option_bind].
  eexists. split; [reflexivity |].
  unfold update_payload. cbn [objects raw available attempts].
  rewrite lookup_alter_eq, Hlog. cbn [fmap option_fmap option_map mbind option_bind payload].
  split; [by destruct o as [n []] |].
  split.
  - apply map_eq. intros i. destruct (decide (i = log)) as [-> | Hne].
    + by rewrite lookup_alter_eq, lookup_insert_eq, Hlog.
    + by rewrite lookup_alter_ne, lookup_insert_ne.
  - assert (Hnew : Log.level _ _ (Log.set_level _ _ new (payload o)) = new)
      by (by destruct o as [n []]).
    rewrite Hnew. f_equal. f_equal. destruct m as [objs rw av att]. cbn. f_equal.
    apply map_eq. intros i. cbn [objects] in Hlog.
    destruct (decide (i = log)) as [-> | Hne].
    + rewrite !lookup_alter_eq, Hlog. cbn. rewrite set_level_twice. by destruct o.
    + by rewrite !lookup_alter_ne.
Qed.

End LogFacts.

Lemma parcLog_Create_succeeds_witness :
  (4 <= available (@room (Log.PARCLog nat nat) 4))%nat /\
  exists (log : address) (m' : Memory.memory (Log.PARCLog nat nat)),
    Log.parcLog_Create nat 0%nat nat id None (Some "app") None 7%nat (room 4)
      = Returned (Some log, m') /\
    objects (@room (Log.PARCLog nat nat) 4) !! log = None /\
    objects m' !! log =
      Some {| refcount := 1;
              payload := {| Log.hostName := Some (contents (default "-" None));
                            Log.applicationName := Some (contents (default "-" (Some "app")));
                            Log.processId := Some (contents (default "-" None));
                            Log.messageId := 0;
                            Log.level := 0%nat;
                            Log.reporter := Some (id 7%nat) |} |} /\
    Log.parcLog_GetLevel nat nat m' log = Some 0%nat /\
    parcMemory_Outstanding m' = (parcMemory_Outstanding (@room (Log.PARCLog nat nat) 4) + 4)%nat.
Proof.
  assert (H : (4 <= available (@room (Log.PARCLog nat nat) 4))%nat) by (simpl; lia).
  split; [exact H |].
  exact (parcLog_Create_succeeds 0%nat id None (Some "app") None 7%nat (room 4) H).
Defined.

Lemma parcLog_SetLevel_GetLevel_witness :
  objects one_logger !! 1%positive = Some one_logger_object /\
  exists m' : Memory.memory (Log.PARCLog nat nat),
    Log.parcLog_SetLevel nat nat 1%positive 5%nat one_logger
      = Some (Log.level _ _ (payload one_logger_object), m') /\
    Log.parcLog_GetLevel nat nat m' 1%positive = Some 5%nat /\
    objects m' = <[1%positive := {| refcount := refcount one_logger_object;
                                    payload := Log.set_level _ _ 5%nat
                                                 (payload one_logger_object) |}]>
                   (objects one_logger) /\
    Log.parcLog_SetLevel nat nat 1%positive (Log.level _ _ (payload one_logger_object)) m'
      = Some (5%nat, one_logger).
Proof.
  assert (H : objects one_logger !! 1%positive = Some one_logger_object) by reflexivity.
  split; [exact H |].
  exact (parcLog_SetLevel_GetLevel one_logger 1%positive one_logger_object 5%nat H).
Defined.

(** ** Key/value pairs on the object store *)

Import KeyValueObjects.

(** *** Running code on the store *)

Lemma C_bind_returned {A B} (c : C A) (k : A -> C B) (m m1 : KeyValueObjects.memory) (a : A) :
  c m = Some (Returned (a, m1)) -> (c ≫= k) m = k a m1.
Proof. intros H. unfold mbind, C_bind. by rewrite H. Qed.

Lemma C_bind_inv {A B} (c : C A) (k : A -> C B) (m m' : KeyValueObjects.memory) (b : B) :
  (c ≫= k) m = Some (Returned (b, m')) ->
  exists a m1, c m = Some (Returned (a, m1)) /\ k a m1 = Some (Returned (b, m')).
Proof.
  unfold mbind, C_bind. destruct (c m) as [[[a m1] | reason |] |]; try discriminate.
  intros H. by exists a, m1.
Qed.

Lemma assertNotNull_Some {A} (x : A) (message : string) (m : KeyValueObjects.memory) :
  assertNotNull (Some x) message m = Some (Returned (tt, m)).
Proof. reflexivity. Qed.

Lemma insert_as_alter (f : object managed -> object managed) (a : address)
    (o : object managed) (objs : gmap address (object managed)) :
  objs !! a = Some o -> <[a := f o]> objs = alter f a objs.
Proof.
  intros H. apply map_eq. intros i. rewrite lookup_insert, lookup_alter.
  case_decide; [subst; by rewrite H | done].
Qed.

Lemma acquire_live (a : address) (o : object managed) (m : KeyValueObjects.memory) :
  objects m !! a = Some o ->
  acquire (Some a) m = Some (Returned (Some a, with_objects m (alter retain a (objects m)))).
Proof.
  intros H. unfold acquire, parcObject_Acquire. rewrite H. cbn.
  by rewrite <- (insert_as_alter retain a o).
Qed.


Lemma write_key_run (kv : address) (k : option address) (m : KeyValueObjects.memory) :
  write_key kv k m = Some (Returned (tt, with_objects m (alter (with_key k) kv (objects m)))).
Proof. reflexivity. Qed.

Lemma write_value_run (kv : address) (v : option address) (m : KeyValueObjects.memory) :
  write_value kv v m
  = Some (Returned (tt, with_objects m (alter (with_value v) kv (objects m)))).
Proof. reflexivity. Qed.

Lemma read_pair_run (kv : address) (n : nat) (k v : option address)
    (m : KeyValueObjects.memory) :
  objects m !! kv = Some {| refcount := n; payload := Pair k v |} ->
  read_pair kv m = Some (Returned ((k, v), m)).
Proof. intros H. unfold read_pair, read_payload. by rewrite H. Qed.

Section PairFacts.
Variable finalize_object : managed -> KeyValueObjects.memory -> outcome KeyValueObjects.memory.

(** Releasing an object that has another holder only counts down. *)
Lemma release_shared (a : address) (o : object managed) (n : nat)
    (m : KeyValueObjects.memory) :
  objects m !! a = Some o ->
  refcount o = S (S n) ->
  release finalize_object (Some a) m
  = Some (Returned (tt, with_objects m (alter unretain a (objects m)))).
Proof.
  intros H Hn. unfold release, parcObject_Release. rewrite H, Hn. cbn.
  rewrite <- (insert_as_alter unretain a o) by done.
  unfold with_objects, unretain. by rewrite Hn.
Qed.

Lemma alloc_pair (m : KeyValueObjects.memory) (n : nat) :
  available m = S n ->
  lift (fun m => Returned (parcObject_CreateInstance (Pair None None) m)) m
  = Some (Returned
            (Some (fresh (dom (objects m))),
             {| objects := <[fresh (dom (objects m)) :=
                               {| refcount := 1; payload := Pair None None |}]> (objects m);
                raw := raw m; available := n; attempts := S (attempts m) |})).
Proof. intros H. unfold lift, parcObject_CreateInstance. by rewrite H. Qed.

(** One step of a run: the first call returns. *)
Ltac step lemma := erewrite C_bind_returned; [| eapply lemma]; cbv beta iota zeta.

(** Looking an address up in a store that was built by updates. *)
Ltac lookups :=
  unfold retained, released; cbn [objects with_objects];
  rewrite ?lookup_alter, ?lookup_insert; repeat case_decide; simplify_eq.

(** X22. [parcKeyValue_Create] never returns NULL: with a NULL key it
    traps, with no memory for the pair it traps, and whenever it returns,
    it returns a pointer to a pair at an address that was not live
    before. *)
Theorem parcKeyValue_Create_not_null :
  (forall value m,
     parcKeyValue_Create None value m
     = Some (Trapped "Key may not be null in a KeyValue element")) /\
  (forall k value m,
     available m = O ->
     parcKeyValue_Create (Some k) value m
     = Some (Trapped "parcMemory_Allocate(%zu) returned NULL")) /\
  (forall key value m r m',
     parcKeyValue_Create key value m = Some (Returned (r, m')) ->
     exists kv, r = Some kv /\ objects m !! kv = None).
Proof.
  split; [| split].
  - intros value m. reflexivity.
  - intros k value m Hav. unfold parcKeyValue_Create.
    rewrite (C_bind_returned _ _ m m tt) by reflexivity.
    unfold lift, parcObject_CreateInstance. unfold mbind at 1, C_bind at 1.
    rewrite Hav. reflexivity.
  - intros key value m r m' Hrun. unfold parcKeyValue_Create in Hrun.
    apply C_bind_inv in Hrun as (u0 & m0 & Hassert & Hrun).
    destruct key as [k |]; [| discriminate]. cbn in Hassert. simplify_eq.
    apply C_bind_inv in Hrun as (keyValue & m1 & Halloc & Hrun).
    apply C_bind_inv in Hrun as (u2 & m2 & Hassert2 & Hrun).
    destruct keyValue as [kv |]; [| discriminate]. clear Hassert2.
    apply C_bind_inv in Hrun as (k' & m3 & H3 & Hrun).
    apply C_bind_inv in Hrun as (u4 & m4 & H4 & Hrun).
    apply C_bind_inv in Hrun as (u5 & m5 & H5 & Hrun).
    apply C_bind_inv in Hrun as (u6 & m6 & H6 & Hrun).
    unfold mret, C_ret in Hrun. injection Hrun as <- <-.
    exists kv. split; [done |].
    unfold lift, parcObject_CreateInstance in Halloc.
    destruct (available m0); [discriminate Halloc |].
    injection Halloc as <- _. apply not_elem_of_dom, is_fresh.
Qed.

Lemma Create_run (k : address) (value : option address) (ok : object managed)
    (n : nat) (m : KeyValueObjects.memory) :
  objects m !! k = Some ok ->
  null_or_live m value ->
  available m = S n ->
  parcKeyValue_Create (Some k) value m
  = Some (Returned
            (Some (fresh (dom (objects m))),
             {| objects := created (fresh (dom (objects m))) k value (objects m);
                raw := raw m; available := n; attempts := S (attempts m) |})).
Proof.
  intros Hok Hv Hn.
  set (kv := fresh (dom (objects m))).
  assert (Hkv : objects m !! kv = None) by (apply not_elem_of_dom, is_fresh).
  assert (Hne : k <> kv) by congruence.
  unfold parcKeyValue_Create.
  step (assertNotNull_Some k). step (alloc_pair m n Hn). fold kv.
  step (assertNotNull_Some kv).
  step acquire_live. 2:{ lookups. exact Hok. }
  step write_key_run. step write_value_run.
  destruct value as [v |]; [| reflexivity].
  cbn in Hv. unfold references in Hv.
  destruct (objects m !! v) as [ov |] eqn:Hov; [| lia].
  assert (Hnv : v <> kv) by congruence.
  match goal with |- context [mbind _ _ ?M] => set (m4 := M) end.
  assert (Hacq : exists o, objects m4 !! v = Some o).
  { unfold m4. destruct (decide (v = k)) as [-> | Hvk].
    - exists (retain ok). lookups. by rewrite Hok.
    - exists ov. lookups. exact Hov. }
  destruct Hacq as [o Hacq].
  erewrite C_bind_returned.
  2:{ step (acquire_live v o); [apply write_value_run | exact Hacq]. }
  reflexivity.
Qed.

Lemma created_lookup_pair (kv k : address) (value : option address)
    (objs : gmap address (object managed)) :
  k <> kv -> value <> Some kv ->
  created kv k value objs !! kv = Some {| refcount := 1; payload := Pair (Some k) value |}.
Proof.
  intros Hk Hv. unfold created. destruct value as [v |].
  - assert (Hvk : v <> kv) by congruence.
    rewrite lookup_alter_eq, lookup_alter_ne, !lookup_alter_eq by done.
    by rewrite lookup_alter_ne, lookup_insert_eq.
  - rewrite !lookup_alter_eq.
    by rewrite lookup_alter_ne, lookup_insert_eq.
Qed.

(** An object that is live is not at the address the next allocation
    returns. *)
Lemma live_not_fresh (m : KeyValueObjects.memory) (p : option address) :
  null_or_live m p -> p <> Some (fresh (dom (objects m))).
Proof.
  intros Hp ->. cbn in Hp. unfold references in Hp.
  assert (H : objects m !! fresh (dom (objects m)) = None)
    by (apply not_elem_of_dom, is_fresh).
  rewrite H in Hp. lia.
Qed.

Lemma created_lookup_other (kv k : address) (value : option address)
    (objs : gmap address (object managed)) (a : address) :
  a <> kv ->
  created kv k value objs !! a
  = (if decide (value = Some a) then retain else id)
      <$> ((if decide (k = a) then retain else id) <$> objs !! a).
Proof.
  intros Ha. unfold created. destruct value as [v |];
    repeat (rewrite lookup_alter || rewrite lookup_insert);
    repeat case_decide; simplify_eq; by destruct (objs !! a).
Qed.

(** X23. [parcKeyValue_Create] with a live key, a value that is NULL or
    live, and room for one allocation returns a new pair, held once, whose
    key and value are the ones given ([parcKeyValue_GetKey] and
    [parcKeyValue_GetValue] return them); the key has gained one reference,
    and so has the value (two, if key and value are the same object); no
    other count and no other object changes. *)
Theorem parcKeyValue_Create_succeeds (k : address) (value : option address)
    (m : KeyValueObjects.memory) :
  (1 <= references m k)%nat ->
  null_or_live m value ->
  (1 <= available m)%nat ->
  exists (kv : address) (m' : KeyValueObjects.memory),
    parcKeyValue_Create (Some k) value m = Some (Returned (Some kv, m')) /\
    objects m !! kv = None /\
    objects m' !! kv = Some {| refcount := 1; payload := Pair (Some k) value |} /\
    parcKeyValue_GetKey (Some kv) m' = Some (Returned (Some k, m')) /\
    parcKeyValue_GetValue (Some kv) m' = Some (Returned (value, m')) /\
    (forall a, a <> kv ->
       references m' a = (references m a + points_to (Some k) a + points_to value a)%nat /\
       read_payload m' a = read_payload m a).
Proof.
  intros Hk Hv Hav.
  destruct (available m) as [| n] eqn:Hn; [lia |]. clear Hav.
  unfold references in Hk. destruct (objects m !! k) as [ok |] eqn:Hok; [| lia].
  eexists _, _. split; [exact (Create_run k value ok n m Hok Hv Hn) |].
  set (kv := fresh (dom (objects m))).
  assert (Hkv : objects m !! kv = None) by (apply not_elem_of_dom, is_fresh).
  split; [exact Hkv |].
  assert (Hpair : created kv k value (objects m) !! kv
                  = Some {| refcount := 1; payload := Pair (Some k) value |}).
  { apply created_lookup_pair; [congruence | by apply live_not_fresh]. }
  split; [exact Hpair |].
  split; [unfold parcKeyValue_GetKey; step (assertNotNull_Some kv);
          step read_pair_run; [reflexivity | exact Hpair] |].
  split; [unfold parcKeyValue_GetValue; step (assertNotNull_Some kv);
          step read_pair_run; [reflexivity | exact Hpair] |].
  intros a Ha. unfold references, read_payload, points_to. cbn [objects].
  rewrite (created_lookup_other kv k value (objects m) a Ha).
  repeat case_decide; repeat case_bool_decide; simplify_eq;
    destruct (objects m !! a) as [oa |] eqn:Hoa; simplify_eq; cbn;
    try (cbn in Hv; unfold references in Hv; rewrite Hoa in Hv; lia);
    (split; [lia | done]).
Qed.

Lemma with_objects_same (m : KeyValueObjects.memory) : with_objects m (objects m) = m.
Proof. by destruct m. Qed.

Lemma unretain_retain (o : object managed) : unretain (retain o) = o.
Proof. by destruct o. Qed.

(** What [parcKeyValue_SetValue] needs of the value it replaces: it is not
    the pair itself, it is live, and unless it is also the new value
    somebody else holds it too. *)
Lemma SetValue_run (kv : address) (n : nat) (key old value : option address)
    (m : KeyValueObjects.memory) :
  objects m !! kv = Some {| refcount := n; payload := Pair key old |} ->
  value <> Some kv ->
  null_or_live m value ->
  replaceable m kv value old ->
  parcKeyValue_SetValue finalize_object (Some kv) value m
  = Some (Returned
            (tt, with_objects m
                   (released old (alter (with_value value) kv (retained value (objects m)))))).
Proof.
  intros Hkv Hvkv Hv Hold. unfold parcKeyValue_SetValue.
  step (assertNotNull_Some kv). step (read_pair_run kv n key old m Hkv).
  assert (Hnew : (match value with
                  | Some _ => acquire value ≫= fun v => write_value kv v
                  | None => write_value kv None
                  end) m
                 = Some (Returned (tt, with_objects m
                                         (alter (with_value value) kv
                                            (retained value (objects m)))))).
  { destruct value as [v |]; [| reflexivity].
    cbn in Hv. unfold references in Hv.
    destruct (objects m !! v) as [ov |] eqn:Hov; [| lia].
    step (acquire_live v ov m Hov). reflexivity. }
  rewrite (C_bind_returned _ _ _ _ _ Hnew). clear Hnew.
  destruct old as [w |]; [| reflexivity].
  destruct Hold as [Hwkv Hw].
  unfold references in Hw. destruct (objects m !! w) as [ow |] eqn:How; [| lia].
  destruct (decide (value = Some w)) as [-> | Hvw].
  - rewrite (release_shared w (retain ow) (pred (refcount ow))); [reflexivity | |].
    + lookups. by rewrite How.
    + cbn. lia.
  - rewrite (release_shared w ow (refcount ow - 2)); [reflexivity | |].
    + destruct value as [v |]; lookups; exact How.
    + destruct Hw as [[Heq _] | Hw]; [done | lia].
Qed.

(** X24. [parcKeyValue_SetValue] on a live pair, with a new value that is
    NULL or live and an old value that is NULL, or the new value, or held
    by somebody else too: afterwards [parcKeyValue_GetValue] returns the
    new value and [parcKeyValue_GetKey] the key as before; the new value
    has gained one reference and the old value has lost one; nothing else
    changes. *)
Theorem parcKeyValue_SetValue_GetValue (kv : address) (n : nat)
    (key old value : option address) (m : KeyValueObjects.memory) :
  objects m !! kv = Some {| refcount := n; payload := Pair key old |} ->
  value <> Some kv ->
  null_or_live m value ->
  replaceable m kv value old ->
  exists m' : KeyValueObjects.memory,
    parcKeyValue_SetValue finalize_object (Some kv) value m = Some (Returned (tt, m')) /\
    objects m' !! kv = Some {| refcount := n; payload := Pair key value |} /\
    parcKeyValue_GetValue (Some kv) m' = Some (Returned (value, m')) /\
    parcKeyValue_GetKey (Some kv) m' = Some (Returned (key, m')) /\
    (forall a, a <> kv ->
       (references m' a + points_to old a = references m a + points_to value a)%nat /\
       read_payload m' a = read_payload m a).
Proof.
  intros Hkv Hvkv Hv Hold.
  eexists. split; [exact (SetValue_run kv n key old value m Hkv Hvkv Hv Hold) |].
  match goal with |- objects ?M !! kv = _ /\ _ => set (m' := M) end.
  assert (Hpair : objects m' !! kv = Some {| refcount := n; payload := Pair key value |}).
  { unfold m', released, retained.
    destruct old as [w |]; [destruct Hold as [Hwkv _] |]; destruct value as [v |];
      lookups; by rewrite Hkv. }
  split; [exact Hpair |].
  split; [unfold parcKeyValue_GetValue; step (assertNotNull_Some kv);
          step read_pair_run; [reflexivity | exact Hpair] |].
  split; [unfold parcKeyValue_GetKey; step (assertNotNull_Some kv);
          step read_pair_run; [reflexivity | exact Hpair] |].
  intros a Ha. unfold references, read_payload, points_to, m', released, retained.
  destruct old as [w |]; [destruct Hold as [Hwkv Hw] |]; destruct value as [v |];
    cbn in Hv; unfold references in *;
    lookups; repeat case_bool_decide; simplify_eq;
    destruct (objects m !! a) as [oa |] eqn:Hoa; simplify_eq; cbn;
    try lia; (split; [try lia | done]);
    destruct oa as [[| rc] pa]; cbn in *; try lia;
    destruct Hw as [[? ?] | ?]; simplify_eq; lia.
Qed.

(** X25. Setting the value a pair already has changes nothing in the
    store: the value is acquired before the old one is released, so a
    value that only the pair holds is not finalized. *)
Theorem parcKeyValue_SetValue_same (kv : address) (n : nat)
    (key old : option address) (m : KeyValueObjects.memory) :
  objects m !! kv = Some {| refcount := n; payload := Pair key old |} ->
  old <> Some kv ->
  null_or_live m old ->
  parcKeyValue_SetValue finalize_object (Some kv) old m = Some (Returned (tt, m)).
Proof.
  intros Hkv Hne Hold.
  rewrite (SetValue_run kv n key old old m Hkv Hne Hold).
  2:{ unfold replaceable. destruct old as [w |]; [| done].
      split; [congruence |]. left. by split. }
  f_equal. f_equal. f_equal. rewrite <- (with_objects_same m) at 3. f_equal.
  apply map_eq. intros i. unfold released, retained.
  destruct old as [w |].
  - assert (Hw : w <> kv) by congruence.
    lookups; destruct (objects m !! i) as [[rc p] |] eqn:Hi; simplify_eq; done.
  - lookups; [by rewrite Hkv | done].
Qed.

(** What releasing the last reference to a pair needs of its key and its
    value: each is held by somebody else too. *)
Lemma Destroy_run (kv k : address) (n : nat) (value : option address)
    (m : KeyValueObjects.memory) :
  objects m !! kv = Some {| refcount := n; payload := Pair (Some k) value |} ->
  shared_with m kv k value ->
  _parcKeyValue_Destroy finalize_object kv m
  = Some (Returned
            (tt, with_objects m
                   (match value with
                    | Some v => alter (with_value None) kv
                                  (alter unretain v
                                     (alter (with_key None) kv
                                        (alter unretain k (objects m))))
                    | None => alter (with_key None) kv (alter unretain k (objects m))
                    end))).
Proof.
  intros Hkv (Hk & Hvkv & Hrk & Hrv). unfold _parcKeyValue_Destroy.
  step (read_pair_run kv n (Some k) value m Hkv).
  unfold references in Hrk. destruct (objects m !! k) as [ok |] eqn:Hok; [| lia].
  step (release_shared k ok (refcount ok - 2) m Hok). 2:{ lia. }
  step write_key_run.
  step (read_pair_run kv n None value). 2:{ lookups. by rewrite Hkv. }
  destruct value as [v |]; [| reflexivity].
  assert (Hv : v <> kv) by congruence.
  unfold references in Hrv. destruct (objects m !! v) as [ov |] eqn:Hov; [| lia].
  destruct (decide (v = k)) as [-> | Hvk].
  - step (release_shared k (unretain ok) (refcount ok - 3)).
    + reflexivity.
    + lookups. by rewrite Hok.
    + unfold points_to in Hrk. rewrite bool_decide_eq_true_2 in Hrk by done. cbn. lia.
  - step (release_shared v ov (refcount ov - 2)).
    + reflexivity.
    + lookups. exact Hov.
    + lia.
Qed.

(** X26. Releasing the last reference to a pair whose key and value are
    held by others too returns, frees the pair and takes one reference
    from the key and one from the value (two from an object that is both);
    nothing else changes.  Releasing a reference that is not the last only
    counts down. *)
Theorem parcKeyValue_Release_last (kv k : address) (value : option address)
    (m : KeyValueObjects.memory) :
  objects m !! kv = Some {| refcount := 1; payload := Pair (Some k) value |} ->
  shared_with m kv k value ->
  exists m' : KeyValueObjects.memory,
    parcKeyValue_Release finalize_object kv m = Some (Returned (tt, m')) /\
    objects m' !! kv = None /\
    (forall a, a <> kv ->
       (references m' a + points_to (Some k) a + points_to value a = references m a)%nat /\
       read_payload m' a = read_payload m a) /\
    (forall n other,
       objects m !! other = Some {| refcount := S (S n); payload := Pair (Some k) value |} ->
       exists m2, parcKeyValue_Release finalize_object other m = Some (Returned (tt, m2)) /\
                  objects m2 = <[other := {| refcount := S n;
                                             payload := Pair (Some k) value |}]> (objects m)).
Proof.
  intros Hkv Hshared. unfold parcKeyValue_Release at 1. rewrite Hkv.
  rewrite (Destroy_run kv k 1 value m Hkv Hshared).
  destruct Hshared as (Hk & Hvkv & Hrk & Hrv).
  eexists. split; [reflexivity |].
  split; [destruct value; cbn; apply lookup_delete_eq |].
  split.
  - intros a Ha. unfold references, read_payload, points_to, free in *.
    destruct value as [v |]; cbn [objects with_objects];
      rewrite lookup_delete_ne by done;
      lookups; repeat case_bool_decide; simplify_eq;
      destruct (objects m !! a) as [[rc pa] |] eqn:Hoa; simplify_eq; cbn in *;
      (split; [lia | done]).
  - intros n other Hother. unfold parcKeyValue_Release. rewrite Hother.
    eexists. split; reflexivity.
Qed.

(** X27. Creating a pair and releasing it again leaves every object as it
    was, with the counts of the key and of the value as before: the two
    calls are balanced. *)
Theorem parcKeyValue_Create_Release (k : address) (value : option address)
    (m : KeyValueObjects.memory) :
  (1 <= references m k)%nat ->
  null_or_live m value ->
  (1 <= available m)%nat ->
  exists (kv : address) (m1 m2 : KeyValueObjects.memory),
    parcKeyValue_Create (Some k) value m = Some (Returned (Some kv, m1)) /\
    parcKeyValue_Release finalize_object kv m1 = Some (Returned (tt, m2)) /\
    objects m2 = objects m /\
    parcMemory_Outstanding m2 = parcMemory_Outstanding m.
Proof.
  intros Hk Hv Hav.
  destruct (available m) as [| n] eqn:Hn; [lia |]. clear Hav.
  pose proof Hk as Hk'.
  unfold references in Hk. destruct (objects m !! k) as [ok |] eqn:Hok; [| lia].
  set (kv := fresh (dom (objects m))).
  assert (Hkv : objects m !! kv = None) by (apply not_elem_of_dom, is_fresh).
  assert (Hkkv : k <> kv) by congruence.
  assert (Hvkv : value <> Some kv) by (by apply live_not_fresh).
  exists kv. eexists _, _.
  split; [exact (Create_run k value ok n m Hok Hv Hn) |]. fold kv.
  set (m1 := {| objects := created kv k value (objects m); raw := raw m;
                available := n; attempts := S (attempts m) |}).
  assert (Hpair : objects m1 !! kv
                  = Some {| refcount := 1; payload := Pair (Some k) value |})
    by (by apply created_lookup_pair).
  assert (Hshared : shared_with m1 kv k value).
  { split; [done |]. split; [done |]. unfold references, points_to. cbn [objects m1].
    split.
    - rewrite (created_lookup_other kv k value (objects m) k Hkkv), Hok.
      repeat case_decide; case_bool_decide; simplify_eq; cbn; lia.
    - destruct value as [v |]; [| done].
      assert (Hv' : v <> kv) by congruence.
      rewrite (created_lookup_other kv k (Some v) (objects m) v Hv').
      cbn in Hv. unfold references in Hv.
      destruct (objects m !! v) as [ov |]; [| lia].
      repeat case_decide; simplify_eq; cbn; lia. }
  unfold parcKeyValue_Release. rewrite Hpair.
  rewrite (Destroy_run kv k 1 value m1 Hpair Hshared).
  split; [reflexivity |].
  assert (Hobjs : objects (free kv (with_objects m1
                     match value with
                     | Some v => alter (with_value None) kv
                                   (alter unretain v
                                      (alter (with_key None) kv
                                         (alter unretain k (objects m1))))
                     | None => alter (with_key None) kv (alter unretain k (objects m1))
                     end)) = objects m).
  { apply map_eq. intros i. unfold free. cbn [objects with_objects m1].
    destruct (decide (i = kv)) as [-> | Hi].
    - by rewrite lookup_delete_eq, Hkv.
    - rewrite lookup_delete_ne by done.
      destruct value as [v |];
        rewrite ?lookup_alter; repeat case_decide; simplify_eq;
        rewrite ?created_lookup_other by done;
        repeat case_decide; simplify_eq;
        destruct (objects m !! i) as [[rc pi] |]; done. }
  split; [exact Hobjs |].
  unfold parcMemory_Outstanding. f_equal. exact (f_equal size Hobjs).
Qed.


End PairFacts.

Lemma parcKeyValue_Create_succeeds_witness :
  (1 <= references pair_store 1%positive)%nat /\
  null_or_live pair_store (Some 2%positive) /\
  (1 <= available pair_store)%nat /\
  exists (kv : address) (m' : KeyValueObjects.memory),
    parcKeyValue_Create (Some 1%positive) (Some 2%positive) pair_store
      = Some (Returned (Some kv, m')) /\
    objects pair_store !! kv = None /\
    objects m' !! kv
      = Some {| refcount := 1; payload := Pair (Some 1%positive) (Some 2%positive) |} /\
    parcKeyValue_GetKey (Some kv) m' = Some (Returned (Some 1%positive, m')) /\
    parcKeyValue_GetValue (Some kv) m' = Some (Returned (Some 2%positive, m')) /\
    (forall a, a <> kv ->
       references m' a = (references pair_store a + points_to (Some 1%positive) a
                          + points_to (Some 2%positive) a)%nat /\
       read_payload m' a = read_payload pair_store a).
Proof.
  assert (H1 : (1 <= references pair_store 1%positive)%nat) by (vm_compute; lia).
  assert (H2 : null_or_live pair_store (Some 2%positive)) by (vm_compute; lia).
  assert (H3 : (1 <= available pair_store)%nat) by (vm_compute; lia).
  split; [exact H1 |]. split; [exact H2 |]. split; [exact H3 |].
  exact (parcKeyValue_Create_succeeds 1%positive (Some 2%positive) pair_store H1 H2 H3).
Defined.

Lemma parcKeyValue_SetValue_GetValue_witness :
  objects pair_store !! 3%positive
    = Some {| refcount := 1; payload := Pair (Some 1%positive) (Some 2%positive) |} /\
  None <> Some 3%positive /\
  null_or_live pair_store None /\
  replaceable pair_store 3%positive None (Some 2%positive) /\
  exists m' : KeyValueObjects.memory,
    parcKeyValue_SetValue nothing_to_finalize (Some 3%positive) None pair_store
      = Some (Returned (tt, m')) /\
    objects m' !! 3%positive
      = Some {| refcount := 1; payload := Pair (Some 1%positive) None |} /\
    parcKeyValue_GetValue (Some 3%positive) m' = Some (Returned (None, m')) /\
    parcKeyValue_GetKey (Some 3%positive) m' = Some (Returned (Some 1%positive, m')) /\
    (forall a, a <> 3%positive ->
       (references m' a + points_to (Some 2%positive) a
        = references pair_store a + points_to None a)%nat /\
       read_payload m' a = read_payload pair_store a).
Proof.
  assert (H1 : objects pair_store !! 3%positive
               = Some {| refcount := 1;
                         payload := Pair (Some 1%positive) (Some 2%positive) |})
    by reflexivity.
  assert (H2 : @None address <> Some 3%positive) by discriminate.
  assert (H3 : null_or_live pair_store None) by exact I.
  assert (H4 : replaceable pair_store 3%positive None (Some 2%positive)).
  { split; [discriminate |]. right. vm_compute. lia. }
  split; [exact H1 |]. split; [exact H2 |]. split; [exact H3 |]. split; [exact H4 |].
  exact (parcKeyValue_SetValue_GetValue nothing_to_finalize 3%positive 1
           (Some 1%positive) (Some 2%positive) None pair_store H1 H2 H3 H4).
Defined.

Lemma parcKeyValue_SetValue_same_witness :
  objects pair_store !! 3%positive
    = Some {| refcount := 1; payload := Pair (Some 1%positive) (Some 2%positive) |} /\
  Some 2%positive <> Some 3%positive /\
  null_or_live pair_store (Some 2%positive) /\
  parcKeyValue_SetValue nothing_to_finalize (Some 3%positive) (Some 2%positive) pair_store
    = Some (Returned (tt, pair_store)).
Proof.
  assert (H1 : objects pair_store !! 3%positive
               = Some {| refcount := 1;
                         payload := Pair (Some 1%positive) (Some 2%positive) |})
    by reflexivity.
  assert (H2 : Some 2%positive <> Some 3%positive) by discriminate.
  assert (H3 : null_or_live pair_store (Some 2%positive)) by (vm_compute; lia).
  split; [exact H1 |]. split; [exact H2 |]. split; [exact H3 |].
  exact (parcKeyValue_SetValue_same nothing_to_finalize 3%positive 1
           (Some 1%positive) (Some 2%positive) pair_store H1 H2 H3).
Defined.

Lemma parcKeyValue_Release_last_witness :
  objects pair_store !! 3%positive
    = Some {| refcount := 1; payload := Pair (Some 1%positive) (Some 2%positive) |} /\
  shared_with pair_store 3%positive 1%positive (Some 2%positive) /\
  exists m' : KeyValueObjects.memory,
    parcKeyValue_Release nothing_to_finalize 3%positive pair_store
      = Some (Returned (tt, m')) /\
    objects m' !! 3%positive = None /\
    (forall a, a <> 3%positive ->
       (references m' a + points_to (Some 1%positive) a + points_to (Some 2%positive) a
        = references pair_store a)%nat /\
       read_payload m' a = read_payload pair_store a) /\
    (forall n other,
       objects pair_store !! other
         = Some {| refcount := S (S n);
                   payload := Pair (Some 1%positive) (Some 2%positive) |} ->
       exists m2,
         parcKeyValue_Release nothing_to_finalize other pair_store
           = Some (Returned (tt, m2)) /\
         objects m2 = <[other := {| refcount := S n;
                                    payload := Pair (Some 1%positive) (Some 2%positive) |}]>
                        (objects pair_store)).
Proof.
  assert (H1 : objects pair_store !! 3%positive
               = Some {| refcount := 1;
                         payload := Pair (Some 1%positive) (Some 2%positive) |})
    by reflexivity.
  assert (H2 : shared_with pair_store 3%positive 1%positive (Some 2%positive)).
  { split; [discriminate |]. split; [discriminate |]. split; vm_compute; lia. }
  split; [exact H1 |]. split; [exact H2 |].
  exact (parcKeyValue_Release_last nothing_to_finalize 3%positive 1%positive
           (Some 2%positive) pair_store H1 H2).
Defined.

Lemma parcKeyValue_Create_Release_witness :
  (1 <= references pair_store 1%positive)%nat /\
  null_or_live pair_store (Some 1%positive) /\
  (1 <= available pair_store)%nat /\
  exists (kv : address) (m1 m2 : KeyValueObjects.memory),
    parcKeyValue_Create (Some 1%positive) (Some 1%positive) pair_store
      = Some (Returned (Some kv, m1)) /\
    parcKeyValue_Release nothing_to_finalize kv m1 = Some (Returned (tt, m2)) /\
    objects m2 = objects pair_store /\
    parcMemory_Outstanding m2 = parcMemory_Outstanding pair_store.
Proof.
  assert (H1 : (1 <= references pair_store 1%positive)%nat) by (vm_compute; lia).
  assert (H2 : null_or_live pair_store (Some 1%positive)) by (vm_compute; lia).
  assert (H3 : (1 <= available pair_store)%nat) by (vm_compute; lia).
  split; [exact H1 |]. split; [exact H2 |]. split; [exact H3 |].
  exact (parcKeyValue_Create_Release nothing_to_finalize 1%positive (Some 1%positive)
           pair_store H1 H2 H3).
Defined.

Lemma atomic_Equals_equivalence_witness :
  let x := {| Fallback.value := 5; Fallback.mutex := Fallback.Unlocked |} in
  let y := {| Fallback.value := 5; Fallback.mutex := Fallback.Locked |} in
  let z := {| Fallback.value := 5 + 0; Fallback.mutex := Fallback.Unlocked |} in
  parcAtomicUint8_Equals x y = true /\
  parcAtomicUint8_Equals y z = true /\
  parcAtomicUint8_Equals x z = true.
Proof.
  intros x y z.
  assert (H1 : parcAtomicUint8_Equals x y = true) by reflexivity.
  assert (H2 : parcAtomicUint8_Equals y z = true) by reflexivity.
  split; [exact H1 |]. split; [exact H2 |].
  exact (proj2 (proj2 atomic_Equals_equivalence) x y z H1 H2).
Defined.

Lemma parcKeyValue_Equals_null_value_witness :
  let a := {| KeyValue.key := 1%Z; KeyValue.value := None |} in
  let b := {| KeyValue.key := 11%Z; KeyValue.value := Some 2%Z |} in
  KeyValue.value a = None /\ KeyValue.value b <> None /\
  parcKeyValue_Equals digit_Equals a b = false.
Proof.
  intros a b.
  assert (H1 : KeyValue.value a = None) by reflexivity.
  assert (H2 : KeyValue.value b <> None) by discriminate.
  split; [exact H1 |]. split; [exact H2 |].
  exact (proj1 (parcKeyValue_Equals_null_value digit_Equals a b) H1 H2).
Defined.

Lemma parcKeyValue_Create_not_null_witness :
  available (@exhausted managed) = O /\
  parcKeyValue_Create (Some 1%positive) None exhausted
    = Some (Trapped "parcMemory_Allocate(%zu) returned NULL") /\
  exists (r : option address) (m' : KeyValueObjects.memory),
    parcKeyValue_Create (Some 1%positive) (Some 2%positive) pair_store
      = Some (Returned (r, m')) /\
    exists kv, r = Some kv /\ objects pair_store !! kv = None.
Proof.
  assert (H0 : available (@exhausted managed) = O) by reflexivity.
  split; [exact H0 |].
  split; [exact (proj1 (proj2 parcKeyValue_Create_not_null) 1%positive None exhausted H0) |].
  eexists _, _.
  assert (Hrun := Create_run 1%positive (Some 2%positive)
                    {| refcount := 2; payload := Other 10 |} 0 pair_store
                    eq_refl (le_S _ _ (le_n 1)) eq_refl).
  split; [exact Hrun |].
  exact (proj2 (proj2 parcKeyValue_Create_not_null) _ _ _ _ _ Hrun).
Defined.

